(** * A decision cache in front of a policy enforcer

    Shallow embedding of [CachedEnforcer] (package casbin) and of the
    [persist.Cache] interface it stores its decisions in, followed by the
    properties of the orchestrator, the key builder and the default
    in-memory store. *)

From stdpp Require Import gmap strings list fin_maps.
From Stdlib Require Import ZArith NArith.

Local Open Scope Z_scope.

(** ** Values and errors *)

(** A Go [error] value that is not nil: the package sentinel
    [ErrNoSuchKey], or any other error (compared by identity in the source,
    so another error never equals the sentinel). *)
Inductive error :=
| ErrNoSuchKey
| ErrOther (msg : string).

(** [err == ErrNoSuchKey] *)
Definition is_ErrNoSuchKey (e : error) : bool :=
  match e with
  | ErrNoSuchKey => true
  | ErrOther _ => false
  end.

(** A call of a method that either returns or panics at run time. *)
Inductive call (A : Type) :=
| Returns (a : A)
| Panics (msg : string).
Arguments Returns {A} a.
Arguments Panics {A} msg.

(** A value of type [interface{}]: only the dynamic types the layer
    distinguishes are kept apart ([string], the [uint] of the survival
    time, the nil interface); every other dynamic type is [IOther]. *)
Inductive iface :=
| IString (s : string)
| IUint (n : N)
| INil
| IOther (tag : nat).

(** ** package persist: the cache store interface *)

Module persist.

(** [type Cache interface].  A method of a store of type [St] takes the
    store and returns its result with the store it leaves behind.  [Get]
    is a query: the orchestrator calls it under the shared lock only. *)
Class Cache (St : Type) := {
  Set_ : string -> bool -> list iface -> St -> option error * St;
  Get : string -> St -> bool * option error;
  Delete : string -> St -> option error * St;
  Clear : St -> option error * St
}.

(** What the comments of the interface promise of an implementation, as
    far as the orchestrator relies on it. *)
Class CacheContract (St : Type) `{Cache St} := {
  Get_Set : forall k v extra s s',
    Set_ k v extra s = (None, s') -> Get k s' = (v, None);
  Get_Delete : forall k s e s',
    Delete k s = (e, s') -> e = None \/ e = Some ErrNoSuchKey ->
    (Get k s').2 = Some ErrNoSuchKey;
  Delete_keeps_absent : forall k k' s e s',
    Delete k s = (e, s') ->
    (Get k' s).2 = Some ErrNoSuchKey -> (Get k' s').2 = Some ErrNoSuchKey;
  Get_Clear : forall s s' k,
    Clear s = (None, s') -> (Get k s').2 = Some ErrNoSuchKey
}.

End persist.

(** ** The default in-memory store: [type DefaultCache map[string]bool] *)

(** The methods have the receiver [c *DefaultCache]; the state of the store
    is the map [*c].  A Go map is nil, the zero value of the type (what
    [new(DefaultCache)] points to), written [None], or a map made by
    [make], written [Some m]. *)

(** The read [res, ok := m[key]] of the map [m] that [c] points to: the
    read of a nil map finds no entry. *)
Definition DefaultCache_index (key : string) (c : option (gmap string bool))
    : option bool :=
  match c with
  | None => None
  | Some m => m !! key
  end.

(** The write [m[key] = value] into the map [m] that [c] points to: the
    write into a nil map panics. *)
Definition DefaultCache_Set (key : string) (value : bool) (extra : list iface)
    (c : option (gmap string bool))
    : call (option error * option (gmap string bool)) :=
  match c with
  | None => Panics "assignment to entry in nil map"
  | Some m => Returns (None, Some (<[key := value]> m))
  end.

Definition DefaultCache_Get (key : string) (c : option (gmap string bool))
    : bool * option error :=
  match DefaultCache_index key c with
  | None => (false, Some ErrNoSuchKey)
  | Some res => (res, None)
  end.

(** The builtin [delete] is reached only when the key was found. *)
Definition DefaultCache_Delete (key : string) (c : option (gmap string bool))
    : option error * option (gmap string bool) :=
  match DefaultCache_index key c with
  | None => (Some ErrNoSuchKey, c)
  | Some _ => (None, delete key <$> c)
  end.

(** The receiver is made to point to [make(DefaultCache)]. *)
Definition DefaultCache_Clear (c : option (gmap string bool))
    : option error * option (gmap string bool) :=
  (None, Some ∅).

(** The store of an orchestrator built by [NewCachedEnforcer]: a
    [DefaultCache] whose map was made by [make].  The methods leave a made
    map made, so the states of this store are the maps themselves, and its
    methods are the methods above on [Some m]. *)
#[export] Instance DefaultCache_made : persist.Cache (gmap string bool) := {|
  persist.Set_ := fun key value extra m => (None, <[key := value]> m);
  persist.Get := fun key m => DefaultCache_Get key (Some m);
  persist.Delete := fun key m =>
    match m !! key with
    | None => (Some ErrNoSuchKey, m)
    | Some _ => (None, delete key m)
    end;
  persist.Clear := fun m => (None, ∅)
|}.

(** ** The key builder *)

(** The loop of [getKey]: [key] is the content of the [strings.Builder]. *)
Fixpoint getKey_loop (key : string) (params : list iface) : string * bool :=
  match params with
  | [] => (key, true)
  | IString val :: rest => getKey_loop (key +:+ val +:+ "$$") rest
  | _ :: _ => ("", false)
  end.

Definition getKey (params : list iface) : string * bool :=
  getKey_loop "" params.

(** The key of a rule or of an all-string request: every parameter is
    followed by the delimiter, the last one too. *)
Fixpoint rule_key (rule : list string) : string :=
  match rule with
  | [] => ""
  | s :: rest => s +:+ "$$" +:+ rule_key rest
  end.

Definition is_string (p : iface) : bool :=
  match p with
  | IString _ => true
  | _ => false
  end.

(** ** The underlying engine *)

(** The methods of the embedded [*Enforcer] that the layer wraps, over an
    engine state [En]. *)
Class Enforcer_iface (En : Type) := {
  Enforcer_Enforce : list iface -> En -> (bool * option error) * En;
  Enforcer_LoadPolicy : En -> option error * En;
  Enforcer_RemovePolicy : list iface -> En -> (bool * option error) * En;
  Enforcer_RemovePolicies : list (list string) -> En -> (bool * option error) * En
}.

(** ** [sync.RWMutex] *)

Record RWMutex := mkRWMutex { writer : bool; readers : nat }.

(** What a call did, in order: operations on the lock, on the store and on
    the underlying engine. *)
Inductive event :=
| EvRLock
| EvRUnlock
| EvLock
| EvUnlock
| EvGet (key : string)
| EvSet (key : string) (value : bool) (extra : list iface)
| EvDelete (key : string)
| EvClear
| EvEnforce (rvals : list iface)
| EvLoadPolicy
| EvRemovePolicy (params : list iface)
| EvRemovePolicies (rules : list (list string)).

(** The locks a single call holds while it runs through the events [t],
    starting with the holdings [held]: a store read needs the lock held in
    either mode, a store write needs it held exclusively. *)
Fixpoint lock_discipline (held : RWMutex) (t : list event) : bool :=
  match t with
  | [] => true
  | ev :: t' =>
    match ev with
    | EvRLock => lock_discipline (mkRWMutex (writer held) (S (readers held))) t'
    | EvRUnlock => lock_discipline (mkRWMutex (writer held) (pred (readers held))) t'
    | EvLock => lock_discipline (mkRWMutex true (readers held)) t'
    | EvUnlock => lock_discipline (mkRWMutex false (readers held)) t'
    | EvGet _ =>
      (writer held || negb (Nat.eqb (readers held) 0)) && lock_discipline held t'
    | EvSet _ _ _ | EvDelete _ | EvClear =>
      writer held && lock_discipline held t'
    | _ => lock_discipline held t'
    end
  end.

(** ** The orchestrator *)

Section CachedEnforcer.

Context {St En : Type} `{!persist.Cache St} `{!Enforcer_iface En}.

(** [type CachedEnforcer struct].  The store is owned by the orchestrator
    alone, so the field holds the store it points to. *)
Record CachedEnforcer := mkCachedEnforcer {
  Enforcer : En;
  expireTime : N;
  cache : St;
  enableCache : Z;
  locker : RWMutex
}.

(** The orchestrator together with the events of the calls so far. *)
Record World := mkWorld { obj : CachedEnforcer; log : list event }.

(** A call returns, panics, or waits for a lock another caller holds. *)
Inductive outcome (A : Type) :=
| Done (a : A) (w : World)
| Panic (msg : string) (w : World)
| Blocked (w : World).
Arguments Done {A} a w.
Arguments Panic {A} msg w.
Arguments Blocked {A} w.

Definition M (A : Type) : Type := World -> outcome A.

Definition ret {A} (a : A) : M A := fun w => Done a w.

Definition bind {A B} (m : M A) (k : A -> M B) : M B :=
  fun w =>
    match m w with
    | Done a w' => k a w'
    | Panic msg w' => Panic msg w'
    | Blocked w' => Blocked w'
    end.

Notation "x <- m ;; k" := (bind m (fun x => k))
  (at level 100, m at next level, right associativity).
Notation "m ;; k" := (bind m (fun _ => k))
  (at level 100, right associativity).

Definition emit (ev : event) (w : World) : World :=
  mkWorld (obj w) (log w ++ [ev]).

Definition with_Enforcer (en : En) (w : World) : World :=
  let e := obj w in
  mkWorld (mkCachedEnforcer en (expireTime e) (cache e) (enableCache e) (locker e))
          (log w).

Definition with_expireTime (t : N) (w : World) : World :=
  let e := obj w in
  mkWorld (mkCachedEnforcer (Enforcer e) t (cache e) (enableCache e) (locker e))
          (log w).

Definition with_cache (c : St) (w : World) : World :=
  let e := obj w in
  mkWorld (mkCachedEnforcer (Enforcer e) (expireTime e) c (enableCache e) (locker e))
          (log w).

Definition with_enableCache (v : Z) (w : World) : World :=
  let e := obj w in
  mkWorld (mkCachedEnforcer (Enforcer e) (expireTime e) (cache e) v (locker e))
          (log w).

Definition with_locker (l : RWMutex) (w : World) : World :=
  let e := obj w in
  mkWorld (mkCachedEnforcer (Enforcer e) (expireTime e) (cache e) (enableCache e) l)
          (log w).

(** *** The lock *)

Definition locker_RLock : M unit := fun w =>
  let l := locker (obj w) in
  if writer l then Blocked w
  else Done tt (emit EvRLock (with_locker (mkRWMutex false (S (readers l))) w)).

Definition locker_RUnlock : M unit := fun w =>
  let l := locker (obj w) in
  match readers l with
  | O => Panic "sync: RUnlock of unlocked RWMutex" w
  | S n => Done tt (emit EvRUnlock (with_locker (mkRWMutex (writer l) n) w))
  end.

Definition locker_Lock : M unit := fun w =>
  let l := locker (obj w) in
  if writer l then Blocked w
  else match readers l with
       | O => Done tt (emit EvLock (with_locker (mkRWMutex true O) w))
       | S _ => Blocked w
       end.

Definition locker_Unlock : M unit := fun w =>
  let l := locker (obj w) in
  if writer l
  then Done tt (emit EvUnlock (with_locker (mkRWMutex false (readers l)) w))
  else Panic "sync: Unlock of unlocked RWMutex" w.

(** *** Calls on the store [e.cache] *)

Definition cache_Set (key : string) (value : bool) (extra : list iface)
    : M (option error) := fun w =>
  let '(err, c) := persist.Set_ key value extra (cache (obj w)) in
  Done err (emit (EvSet key value extra) (with_cache c w)).

Definition cache_Get (key : string) : M (bool * option error) := fun w =>
  Done (persist.Get key (cache (obj w))) (emit (EvGet key) w).

Definition cache_Delete (key : string) : M (option error) := fun w =>
  let '(err, c) := persist.Delete key (cache (obj w)) in
  Done err (emit (EvDelete key) (with_cache c w)).

Definition cache_Clear : M (option error) := fun w =>
  let '(err, c) := persist.Clear (cache (obj w)) in
  Done err (emit EvClear (with_cache c w)).

(** *** Calls on the embedded engine [e.Enforcer] *)

Definition engine_Enforce (rvals : list iface) : M (bool * option error) :=
  fun w =>
    let '(r, en) := Enforcer_Enforce rvals (Enforcer (obj w)) in
    Done r (emit (EvEnforce rvals) (with_Enforcer en w)).

Definition engine_LoadPolicy : M (option error) := fun w =>
  let '(r, en) := Enforcer_LoadPolicy (Enforcer (obj w)) in
  Done r (emit EvLoadPolicy (with_Enforcer en w)).

Definition engine_RemovePolicy (params : list iface)
    : M (bool * option error) := fun w =>
  let '(r, en) := Enforcer_RemovePolicy params (Enforcer (obj w)) in
  Done r (emit (EvRemovePolicy params) (with_Enforcer en w)).

Definition engine_RemovePolicies (rules : list (list string))
    : M (bool * option error) := fun w =>
  let '(r, en) := Enforcer_RemovePolicies rules (Enforcer (obj w)) in
  Done r (emit (EvRemovePolicies rules) (with_Enforcer en w)).

(** [atomic.LoadInt32(&e.enableCache)] *)
Definition load_enableCache : M Z := fun w => Done (enableCache (obj w)) w.

(** *** The methods of [CachedEnforcer] *)

Definition EnableCache (enableCache : bool) : M unit := fun w =>
  let enabled := if enableCache then 1 else 0 in
  Done tt (with_enableCache enabled w).

Definition SetExpireTime (expireTime : N) : M unit := fun w =>
  Done tt (with_expireTime expireTime w).

Definition SetCache (c : St) : M unit := fun w =>
  Done tt (with_cache c w).

(** The deferred unlock runs after the store's answer is computed. *)
Definition getCachedResult (key : string) : M (bool * option error) :=
  locker_RLock ;;
  r <- cache_Get key ;;
  locker_RUnlock ;;
  ret r.

Definition setCachedResult (key : string) (res : bool) (extra : list iface)
    : M (option error) :=
  locker_Lock ;;
  err <- cache_Set key res extra ;;
  locker_Unlock ;;
  ret err.

Definition InvalidateCache : M (option error) :=
  locker_Lock ;;
  err <- cache_Clear ;;
  locker_Unlock ;;
  ret err.

Definition Enforce (rvals : list iface) : M (bool * option error) :=
  enabled <- load_enableCache ;;
  if enabled =? 0 then engine_Enforce rvals
  else
    let '(key, ok) := getKey rvals in
    if negb ok then engine_Enforce rvals
    else
      r <- getCachedResult key ;;
      match r.2 with
      | None => ret (r.1, None)
      | Some err =>
        if negb (is_ErrNoSuchKey err) then ret (r.1, Some err)
        else
          r' <- engine_Enforce rvals ;;
          match r'.2 with
          | Some err' => ret (false, Some err')
          | None =>
            fun w =>
              (err'' <- setCachedResult key r'.1 [IUint (expireTime (obj w))] ;;
               ret (r'.1, err'')) w
          end
      end.

Definition LoadPolicy : M (option error) :=
  enabled <- load_enableCache ;;
  if negb (enabled =? 0) then
    err <- cache_Clear ;;
    match err with
    | Some e => ret (Some e)
    | None => engine_LoadPolicy
    end
  else engine_LoadPolicy.

Definition RemovePolicy (params : list iface) : M (bool * option error) :=
  enabled <- load_enableCache ;;
  if negb (enabled =? 0) then
    let '(key, ok) := getKey params in
    if ok then
      err <- cache_Delete key ;;
      match err with
      | Some e =>
        if negb (is_ErrNoSuchKey e) then ret (false, Some e)
        else engine_RemovePolicy params
      | None => engine_RemovePolicy params
      end
    else engine_RemovePolicy params
  else engine_RemovePolicy params.

(** [for i, param := range rule { irule[i] = param }] from index [i] on:
    the buffer keeps its length, and a write past its end panics. *)
Fixpoint fill_irule (i : nat) (rule : list string) (irule : list iface)
    : option (list iface) :=
  match rule with
  | [] => Some irule
  | param :: rest =>
    if decide (i < length irule)%nat
    then fill_irule (S i) rest (<[i := IString param]> irule)
    else None
  end.

(** [for _, rule := range rules { ... }] with the one buffer [irule]
    shared by all the iterations. *)
Fixpoint RemovePolicies_loop (irule : list iface) (rules : list (list string))
    : M (option error) :=
  match rules with
  | [] => ret None
  | rule :: rest =>
    match fill_irule 0 rule irule with
    | None => fun w => Panic "runtime error: index out of range" w
    | Some irule' =>
      let '(key, _) := getKey irule' in
      err <- cache_Delete key ;;
      match err with
      | Some e =>
        if negb (is_ErrNoSuchKey e) then ret (Some e)
        else RemovePolicies_loop irule' rest
      | None => RemovePolicies_loop irule' rest
      end
    end
  end.

Definition RemovePolicies (rules : list (list string))
    : M (bool * option error) :=
  match rules with
  | [] => engine_RemovePolicies rules
  | rule0 :: _ =>
    enabled <- load_enableCache ;;
    if negb (enabled =? 0) then
      let irule := replicate (length rule0) INil in
      err <- RemovePolicies_loop irule rules ;;
      match err with
      | Some e => ret (false, Some e)
      | None => engine_RemovePolicies rules
      end
    else engine_RemovePolicies rules
  end.

(** No caller holds the lock. *)
Definition lock_free (w : World) : Prop := locker (obj w) = mkRWMutex false 0.

(** The world a call leaves behind: the fields of the orchestrator and the
    events it added to the log of [w]. *)
Definition after (w : World) (en : En) (c : St) (t : list event) : World :=
  mkWorld (mkCachedEnforcer en (expireTime (obj w)) c (enableCache (obj w))
                            (locker (obj w)))
          (log w ++ t).

(** The store has no failure of its own: [Delete] answers nil or
    [ErrNoSuchKey]. *)
Definition Delete_never_fails : Prop :=
  forall k (s : St),
    (persist.Delete k s).1 = None \/ (persist.Delete k s).1 = Some ErrNoSuchKey.

End CachedEnforcer.

Arguments CachedEnforcer : clear implicits.
Arguments World : clear implicits.
Arguments outcome : clear implicits.
Arguments Done {St En A} a w.
Arguments Panic {St En A} msg w.
Arguments Blocked {St En A} w.

(** ** A call-counting stub engine and the constructor *)

(** An engine that counts the calls it receives and gives the same answer
    to each. *)
Record Stub := mkStub { stub_calls : nat; stub_answer : bool * option error }.

#[export] Instance Stub_engine : Enforcer_iface Stub := {|
  Enforcer_Enforce := fun _ s => (stub_answer s, mkStub (S (stub_calls s)) (stub_answer s));
  Enforcer_LoadPolicy := fun s => ((stub_answer s).2, mkStub (S (stub_calls s)) (stub_answer s));
  Enforcer_RemovePolicy := fun _ s => (stub_answer s, mkStub (S (stub_calls s)) (stub_answer s));
  Enforcer_RemovePolicies := fun _ s => (stub_answer s, mkStub (S (stub_calls s)) (stub_answer s))
|}.

(** [NewCachedEnforcer], given what [NewEnforcer(params...)] returned (the
    constructor of the engine is not part of this layer): an error of the
    engine's constructor is passed on; otherwise caching is on, the store is
    an empty [DefaultCache], the lock is new and the survival time is the
    zero value of [uint]. *)
Definition NewCachedEnforcer {En : Type} (NewEnforcer : En * option error)
    : option (World (gmap string bool) En) * option error :=
  match NewEnforcer.2 with
  | Some err => (None, Some err)
  | None =>
    (Some (mkWorld (mkCachedEnforcer NewEnforcer.1 0%N (∅ : gmap string bool) 1
                                     (mkRWMutex false 0))
                   []),
     None)
  end.

(** The request of the scenarios: alice reads data1. *)
Definition alice_request : list iface :=
  [IString "alice"; IString "data1"; IString "read"].

(** ** The scenarios *)

(** A new orchestrator over a stub that answers true: what
    [NewCachedEnforcer] returns for that stub. *)
Definition world0 : World (gmap string bool) Stub :=
  mkWorld (mkCachedEnforcer (mkStub 0 (true, None)) 0%N ∅ 1 (mkRWMutex false 0)) [].

(** The world after the first [Enforce] of alice's request: the engine was
    called once and the decision is in the store. *)
Definition world1 : World (gmap string bool) Stub :=
  after world0 (mkStub 1 (true, None))
        (<["alice$$data1$$read$$" := true]> ∅)
        [EvRLock; EvGet "alice$$data1$$read$$"; EvRUnlock; EvEnforce alice_request;
         EvLock; EvSet "alice$$data1$$read$$" true [IUint 0%N]; EvUnlock].

(** The world after [Enforce] of the one parameter a$$b on a new
    orchestrator. *)
Definition world_ab : World (gmap string bool) Stub :=
  after world0 (mkStub 1 (true, None))
        (<["a$$b$$" := true]> ∅)
        [EvRLock; EvGet "a$$b$$"; EvRUnlock; EvEnforce [IString "a$$b"];
         EvLock; EvSet "a$$b$$" true [IUint 0%N]; EvUnlock].

(** An orchestrator with caching on whose store holds the decision of the
    request with the one parameter c. *)
Definition world_c : World (gmap string bool) Stub :=
  mkWorld (mkCachedEnforcer (mkStub 0 (true, None)) 0%N
                            (<["c$$" := true]> ∅) 1 (mkRWMutex false 0))
          [].

(** A call starts with no lock of its own. *)
Definition no_lock_held : RWMutex := mkRWMutex false 0.

(** ** A store whose backend is down *)

(** The error of a store that cannot reach its backend: any error that is
    not the sentinel. *)
Definition backend_down : error := ErrOther "cache backend unreachable".

(** A store without content that answers every call with [backend_down]. *)
Inductive Broken := broken.

#[export] Instance BrokenCache : persist.Cache Broken := {|
  persist.Set_ := fun _ _ _ s => (Some backend_down, s);
  persist.Get := fun _ _ => (false, Some backend_down);
  persist.Delete := fun _ s => (Some backend_down, s);
  persist.Clear := fun s => (Some backend_down, s)
|}.

(** A new orchestrator whose store was swapped for the broken one. *)
Definition world_broken : World Broken Stub :=
  mkWorld (mkCachedEnforcer (mkStub 0 (true, None)) 0%N broken 1 (mkRWMutex false 0)) [].

(** ** Keys without the delimiter's character *)

(** The character of which the delimiter is made (code 36). *)
Definition dollar : Ascii.ascii := Ascii.ascii_of_nat 36.

(** The string contains the character of the delimiter. *)
Fixpoint has_dollar (s : string) : bool :=
  match s with
  | EmptyString => false
  | String ch rest => if Ascii.eqb ch dollar then true else has_dollar rest
  end.

(** ** The store after a batch of deletions *)

(** The store that [Delete] of the keys, in order, leaves when every answer
    is nil or [ErrNoSuchKey]; none when one of them is another error. *)
Fixpoint Delete_all {St : Type} `{!persist.Cache St} (keys : list string) (c : St)
    : option St :=
  match keys with
  | [] => Some c
  | k :: rest =>
    match persist.Delete k c with
    | (Some e, c1) => if is_ErrNoSuchKey e then Delete_all rest c1 else None
    | (None, c1) => Delete_all rest c1
    end
  end.

(** * Properties *)

(** ** The key builder *)

Lemma append_assoc' (a b c : string) : (a +:+ b) +:+ c = a +:+ b +:+ c.
Proof.
  induction a as [|ch a IH]; [done|].
  change (String ch ((a +:+ b) +:+ c) = String ch (a +:+ b +:+ c)).
  by rewrite IH.
Qed.

Lemma append_empty_r (a : string) : a +:+ "" = a.
Proof.
  induction a as [|ch a IH]; [done|].
  change (String ch (a +:+ "") = String ch a). by rewrite IH.
Qed.

Lemma getKey_loop_strings (rule : list string) (key : string) :
  getKey_loop key (IString <$> rule) = (key +:+ rule_key rule, true).
Proof.
  revert key. induction rule as [|s rest IH]; intros key.
  - cbn. by rewrite append_empty_r.
  - cbn [fmap list_fmap getKey_loop rule_key]. rewrite IH.
    by rewrite !append_assoc'.
Qed.

Lemma getKey_strings (rule : list string) :
  getKey (IString <$> rule) = (rule_key rule, true).
Proof. unfold getKey. by rewrite getKey_loop_strings. Qed.

Lemma getKey_loop_not_cacheable (params : list iface) (key : string) :
  forallb is_string params = false -> getKey_loop key params = ("", false).
Proof.
  revert key. induction params as [|p rest IH]; intros key Hp; simpl in *.
  - discriminate.
  - destruct p; simpl in *; try reflexivity. by apply IH.
Qed.

Lemma getKey_loop_cacheable (params : list iface) (key : string) :
  forallb is_string params = true -> (getKey_loop key params).2 = true.
Proof.
  revert key. induction params as [|p rest IH]; intros key Hp; simpl in *.
  - reflexivity.
  - destruct p; simpl in *; try discriminate. by apply IH.
Qed.

(** ** The default store keeps the promises of the interface *)

(** The store of a new orchestrator is the default store on a made map. *)
Lemma DefaultCache_made_agrees (m : gmap string bool) (k : string) (v : bool)
    (extra : list iface) :
  DefaultCache_Set k v extra (Some m) =
    Returns ((persist.Set_ k v extra m).1, Some (persist.Set_ k v extra m).2) /\
  DefaultCache_Get k (Some m) = persist.Get k m /\
  DefaultCache_Delete k (Some m) =
    ((persist.Delete k m).1, Some (persist.Delete k m).2) /\
  DefaultCache_Clear (Some m) = ((persist.Clear m).1, Some (persist.Clear m).2).
Proof.
  repeat split. unfold DefaultCache_Delete. simpl. by destruct (m !! k).
Qed.

#[export] Instance DefaultCache_contract : persist.CacheContract (gmap string bool).
Proof.
  split; simpl; unfold DefaultCache_Get; simpl.
  - intros k v extra s s'. intros [= <-]. by rewrite lookup_insert_eq.
  - intros k s e s' Hd _.
    destruct (s !! k) eqn:Hk; injection Hd as <- <-.
    + by rewrite lookup_delete_eq.
    + by rewrite Hk.
  - intros k k' s e s' Hd.
    destruct (s !! k) eqn:Hk; injection Hd as <- <-; [|done].
    destruct (s !! k') eqn:Hk'; simpl; [done|]. intros _.
    destruct (decide (k = k')) as [->|Hne].
    + by rewrite lookup_delete_eq.
    + by rewrite lookup_delete_ne, Hk'.
  - intros s s' k. intros [= <-]. by rewrite lookup_empty.
Qed.

(** C8, as stated, fails on the zero value of the store: on the nil map
    that [new(DefaultCache)] points to, [Set] does not succeed, it panics. *)
Lemma DefaultCache_Set_nil_map_panics :
  DefaultCache_Set "alice$$data1$$read$$" true [IUint 0%N] None
    = Panics "assignment to entry in nil map" /\
  ~ (forall c k v hint, exists r, DefaultCache_Set k v hint c = Returns r).
Proof.
  split; [reflexivity|].
  intros Hall. destruct (Hall None "alice$$data1$$read$$" true [IUint 0%N]) as [r Hr].
  discriminate.
Qed.

(** C8, amended: the default in-memory store satisfies the Cache contract
    on every map made by [make].  There [Set] succeeds whatever the
    survival hint is and overwrites the entry, after which [Get] returns
    the value with a nil error.  In every state, the nil map included,
    [Get] and [Delete] of an absent key fail with [ErrNoSuchKey] (and
    [Delete] leaves the store as it is), and [Clear] succeeds and leaves an
    empty made map, on which every [Get] fails with [ErrNoSuchKey]. *)
Theorem DefaultCache_contract_on_made_map (m : gmap string bool)
    (c : option (gmap string bool)) (k : string) (v : bool) (hint : list iface) :
  (exists c',
     DefaultCache_Set k v hint (Some m) = Returns (None, c') /\
     c' = Some (<[k := v]> m) /\
     DefaultCache_Get k c' = (v, None)) /\
  (DefaultCache_index k c = None ->
     DefaultCache_Get k c = (false, Some ErrNoSuchKey) /\
     DefaultCache_Delete k c = (Some ErrNoSuchKey, c)) /\
  (exists c',
     DefaultCache_Clear c = (None, c') /\
     c' = Some ∅ /\
     forall k', DefaultCache_Get k' c' = (false, Some ErrNoSuchKey)).
Proof.
  split; [|split].
  - eexists. split; [reflexivity|]. split; [reflexivity|].
    unfold DefaultCache_Get. simpl. by rewrite lookup_insert_eq.
  - intros Habs. unfold DefaultCache_Get, DefaultCache_Delete. by rewrite Habs.
  - eexists. split; [reflexivity|]. split; [reflexivity|].
    intros k'. unfold DefaultCache_Get. simpl. by rewrite lookup_empty.
Qed.

Lemma DefaultCache_contract_on_made_map_witness :
  DefaultCache_Get "bob$$" None = (false, Some ErrNoSuchKey) /\
  DefaultCache_Delete "bob$$" None = (Some ErrNoSuchKey, None).
Proof.
  apply (proj1 (proj2
    (DefaultCache_contract_on_made_map
       (<["alice$$data1$$read$$" := true]> ∅) None "bob$$" true [IUint 0%N]))).
  reflexivity.
Defined.

(** ** How the calls of the orchestrator run *)

Section Runs.

Context {St En : Type} `{!persist.Cache St} `{!Enforcer_iface En}.

Implicit Types (w : World St En) (rvals params : list iface) (key : string).

Ltac run_world w :=
  destruct w as [[en et c ec [wr rd]] lg]; unfold lock_free, after in *;
  simpl in *; subst.

Ltac unfold_calls :=
  unfold Enforce, LoadPolicy, RemovePolicy, InvalidateCache,
    getCachedResult, setCachedResult, bind, ret, load_enableCache,
    locker_RLock, locker_RUnlock, locker_Lock, locker_Unlock,
    cache_Get, cache_Set, cache_Delete, cache_Clear,
    engine_Enforce, engine_LoadPolicy, engine_RemovePolicy,
    engine_RemovePolicies, emit, with_cache, with_Enforcer, with_locker,
    with_enableCache, with_expireTime.

Lemma enabled_eqb (v : Z) : v <> 0 -> (v =? 0) = false.
Proof. intros Hv. by apply Z.eqb_neq. Qed.

Lemma engine_Enforce_run w rvals r en' :
  Enforcer_Enforce rvals (Enforcer (obj w)) = (r, en') ->
  engine_Enforce rvals w = Done r (after w en' (cache (obj w)) [EvEnforce rvals]).
Proof. intros He. unfold_calls. rewrite He. by run_world w. Qed.

Lemma Enforce_disabled w rvals :
  enableCache (obj w) = 0 -> Enforce rvals w = engine_Enforce rvals w.
Proof. intros Hd. unfold Enforce, bind, load_enableCache. by rewrite Hd. Qed.

Lemma Enforce_not_cacheable w rvals :
  enableCache (obj w) <> 0 -> (getKey rvals).2 = false ->
  Enforce rvals w = engine_Enforce rvals w.
Proof.
  intros Hen Hk. unfold Enforce, bind, load_enableCache.
  rewrite (enabled_eqb _ Hen). destruct (getKey rvals) as [key ok].
  simpl in Hk. by subst ok.
Qed.

Lemma getCachedResult_run w key :
  writer (locker (obj w)) = false ->
  getCachedResult key w =
    Done (persist.Get key (cache (obj w)))
         (after w (Enforcer (obj w)) (cache (obj w)) [EvRLock; EvGet key; EvRUnlock]).
Proof.
  intros Hw. run_world w. unfold_calls. simpl.
  by rewrite <- !app_assoc.
Qed.

Lemma getCachedResult_blocked w key :
  writer (locker (obj w)) = true -> getCachedResult key w = Blocked w.
Proof. intros Hw. unfold_calls. by rewrite Hw. Qed.

Lemma setCachedResult_run w key res extra serr c' :
  lock_free w ->
  persist.Set_ key res extra (cache (obj w)) = (serr, c') ->
  setCachedResult key res extra w =
    Done serr (after w (Enforcer (obj w)) c' [EvLock; EvSet key res extra; EvUnlock]).
Proof.
  intros Hl Hs. run_world w. injection Hl as -> ->.
  unfold_calls. simpl. rewrite Hs. simpl. by rewrite <- !app_assoc.
Qed.

Lemma setCachedResult_not_free w key res extra a w' :
  setCachedResult key res extra w = Done a w' -> lock_free w.
Proof.
  run_world w. unfold_calls. simpl.
  destruct wr; [discriminate|]. destruct rd; [done|discriminate].
Qed.

Lemma Enforce_hit w rvals key d :
  enableCache (obj w) <> 0 -> getKey rvals = (key, true) ->
  writer (locker (obj w)) = false ->
  persist.Get key (cache (obj w)) = (d, None) ->
  Enforce rvals w =
    Done (d, None)
         (after w (Enforcer (obj w)) (cache (obj w)) [EvRLock; EvGet key; EvRUnlock]).
Proof.
  intros Hen Hk Hw Hg. unfold Enforce. unfold bind at 1, load_enableCache.
  rewrite (enabled_eqb _ Hen), Hk. simpl. unfold bind at 1.
  rewrite (getCachedResult_run _ _ Hw), Hg. reflexivity.
Qed.

Lemma Enforce_store_error w rvals key d msg :
  enableCache (obj w) <> 0 -> getKey rvals = (key, true) ->
  writer (locker (obj w)) = false ->
  persist.Get key (cache (obj w)) = (d, Some (ErrOther msg)) ->
  Enforce rvals w =
    Done (d, Some (ErrOther msg))
         (after w (Enforcer (obj w)) (cache (obj w)) [EvRLock; EvGet key; EvRUnlock]).
Proof.
  intros Hen Hk Hw Hg. unfold Enforce. unfold bind at 1, load_enableCache.
  rewrite (enabled_eqb _ Hen), Hk. simpl. unfold bind at 1.
  rewrite (getCachedResult_run _ _ Hw), Hg. reflexivity.
Qed.

Lemma Enforce_miss_engine_error w rvals key d0 r e en' :
  enableCache (obj w) <> 0 -> getKey rvals = (key, true) ->
  writer (locker (obj w)) = false ->
  persist.Get key (cache (obj w)) = (d0, Some ErrNoSuchKey) ->
  Enforcer_Enforce rvals (Enforcer (obj w)) = ((r, Some e), en') ->
  Enforce rvals w =
    Done (false, Some e)
         (after w en' (cache (obj w))
                [EvRLock; EvGet key; EvRUnlock; EvEnforce rvals]).
Proof.
  intros Hen Hk Hw Hg He. unfold Enforce. unfold bind at 1, load_enableCache.
  rewrite (enabled_eqb _ Hen), Hk. simpl. unfold bind at 1.
  rewrite (getCachedResult_run _ _ Hw), Hg. simpl. unfold bind at 1.
  erewrite engine_Enforce_run by exact He. simpl.
  unfold ret. run_world w. by rewrite <- !app_assoc.
Qed.

Lemma Enforce_miss_engine_ok w rvals key d0 r en' serr c' :
  enableCache (obj w) <> 0 -> getKey rvals = (key, true) ->
  lock_free w ->
  persist.Get key (cache (obj w)) = (d0, Some ErrNoSuchKey) ->
  Enforcer_Enforce rvals (Enforcer (obj w)) = ((r, None), en') ->
  persist.Set_ key r [IUint (expireTime (obj w))] (cache (obj w)) = (serr, c') ->
  Enforce rvals w =
    Done (r, serr)
         (after w en' c'
                [EvRLock; EvGet key; EvRUnlock; EvEnforce rvals;
                 EvLock; EvSet key r [IUint (expireTime (obj w))]; EvUnlock]).
Proof.
  intros Hen Hk Hl Hg He Hs.
  assert (Hw : writer (locker (obj w)) = false) by (by rewrite Hl).
  unfold Enforce. unfold bind at 1, load_enableCache.
  rewrite (enabled_eqb _ Hen), Hk. simpl. unfold bind at 1.
  rewrite (getCachedResult_run _ _ Hw), Hg. simpl. unfold bind at 1.
  erewrite engine_Enforce_run by exact He. simpl. unfold bind at 1.
  erewrite setCachedResult_run; [| by run_world w | exact Hs].
  unfold ret. run_world w. by rewrite <- !app_assoc.
Qed.

End Runs.

(** ** Enforce *)

Section EnforceFacts.

Context {St En : Type} `{!persist.Cache St} `{!Enforcer_iface En}.

Implicit Types (w : World St En) (rvals params : list iface) (key : string).

(** A call of [Enforce] that returned a decision without an error, with
    caching on and a key: it was a hit, or a miss that the engine decided
    and the store took. *)
Lemma Enforce_success_cases w rvals key d w1 :
  enableCache (obj w) <> 0 -> getKey rvals = (key, true) ->
  Enforce rvals w = Done (d, None) w1 ->
  (writer (locker (obj w)) = false /\
   persist.Get key (cache (obj w)) = (d, None) /\
   w1 = after w (Enforcer (obj w)) (cache (obj w)) [EvRLock; EvGet key; EvRUnlock])
  \/
  (lock_free w /\
   exists d0 en' c',
     persist.Get key (cache (obj w)) = (d0, Some ErrNoSuchKey) /\
     Enforcer_Enforce rvals (Enforcer (obj w)) = ((d, None), en') /\
     persist.Set_ key d [IUint (expireTime (obj w))] (cache (obj w)) = (None, c') /\
     w1 = after w en' c'
            [EvRLock; EvGet key; EvRUnlock; EvEnforce rvals;
             EvLock; EvSet key d [IUint (expireTime (obj w))]; EvUnlock]).
Proof.
  intros Hen Hk Hrun.
  destruct (writer (locker (obj w))) eqn:Hw.
  { exfalso. revert Hrun. unfold Enforce. unfold bind at 1, load_enableCache.
    rewrite (enabled_eqb _ Hen), Hk. simpl. unfold bind at 1.
    by rewrite (getCachedResult_blocked _ _ Hw). }
  destruct (persist.Get key (cache (obj w))) as [d0 [[|msg]|]] eqn:Hg.
  - right.
    destruct (Enforcer_Enforce rvals (Enforcer (obj w))) as [[r [e|]] en'] eqn:He.
    { rewrite (Enforce_miss_engine_error _ _ _ _ _ _ _ Hen Hk Hw Hg He) in Hrun.
      discriminate. }
    destruct (persist.Set_ key r [IUint (expireTime (obj w))] (cache (obj w)))
      as [serr c'] eqn:Hs.
    assert (Hfree : lock_free w).
    { revert Hrun. unfold Enforce. unfold bind at 1, load_enableCache.
      rewrite (enabled_eqb _ Hen), Hk. simpl. unfold bind at 1.
      rewrite (getCachedResult_run _ _ Hw), Hg. simpl. unfold bind at 1.
      erewrite engine_Enforce_run by exact He. simpl. unfold bind at 1.
      destruct (setCachedResult _ _ _ _) as [a w'| |] eqn:Hset; try discriminate.
      intros _. apply setCachedResult_not_free in Hset.
      revert Hset. unfold lock_free, after. by simpl. }
    rewrite (Enforce_miss_engine_ok _ _ _ _ _ _ _ _ Hen Hk Hfree Hg He Hs) in Hrun.
    injection Hrun as -> -> <-. split; [done|]. by exists d0, en', c'.
  - rewrite (Enforce_store_error _ _ _ _ _ Hen Hk Hw Hg) in Hrun. discriminate.
  - left. rewrite (Enforce_hit _ _ _ _ Hen Hk Hw Hg) in Hrun.
    by injection Hrun as -> <-.
Qed.

Context `{!persist.CacheContract St}.

(** After a successful [Enforce], a request with the same key is answered
    from the store. *)
Lemma Enforce_same_key_cached w rvals rvals' key d w1 :
  enableCache (obj w) <> 0 ->
  getKey rvals = (key, true) -> getKey rvals' = (key, true) ->
  Enforce rvals w = Done (d, None) w1 ->
  Enforce rvals' w1 =
    Done (d, None)
         (after w1 (Enforcer (obj w1)) (cache (obj w1)) [EvRLock; EvGet key; EvRUnlock]).
Proof.
  intros Hen Hk Hk' Hrun.
  destruct (Enforce_success_cases _ _ _ _ _ Hen Hk Hrun)
    as [(Hw & Hg & ->) | (Hfree & d0 & en' & c' & Hg & He & Hs & ->)].
  - apply Enforce_hit; try done.
  - apply Enforce_hit; try done.
    + simpl. by rewrite Hfree.
    + simpl. by apply persist.Get_Set in Hs.
Qed.

(** C1: with caching enabled and only string parameters, when a first
    [Enforce] returns a decision without an error, a second [Enforce] with
    the same parameters returns the same decision without an error; the
    events it adds are the read lock, the [Get] and the unlock, and the
    state of the underlying engine is the one the first call left: the
    engine is not invoked. *)
Theorem Enforce_twice_cached w rvals d w1 :
  enableCache (obj w) <> 0 ->
  forallb is_string rvals = true ->
  Enforce rvals w = Done (d, None) w1 ->
  exists key w2,
    getKey rvals = (key, true) /\
    Enforce rvals w1 = Done (d, None) w2 /\
    log w2 = log w1 ++ [EvRLock; EvGet key; EvRUnlock] /\
    Enforcer (obj w2) = Enforcer (obj w1) /\
    cache (obj w2) = cache (obj w1).
Proof.
  intros Hen Hstr Hrun.
  pose proof (getKey_loop_cacheable rvals "" Hstr) as Hok.
  fold (getKey rvals) in Hok.
  destruct (getKey rvals) as [key ok] eqn:Hk. simpl in Hok. subst ok.
  exists key. eexists. split; [done|].
  split; [exact (Enforce_same_key_cached _ _ _ _ _ _ Hen Hk Hk Hrun)|].
  done.
Qed.

(** C3: with caching enabled, a request with a parameter that is not a
    string gets no key; [Enforce] hands it to the underlying engine and
    returns the engine's result, the only event is the engine's call, and
    the store is the one before the call. *)
Theorem Enforce_non_string_bypasses_cache w rvals :
  enableCache (obj w) <> 0 ->
  (exists p, p ∈ rvals /\ is_string p = false) ->
  getKey rvals = ("", false) /\
  exists r en' w',
    Enforcer_Enforce rvals (Enforcer (obj w)) = (r, en') /\
    Enforce rvals w = Done r w' /\
    cache (obj w') = cache (obj w) /\
    Enforcer (obj w') = en' /\
    log w' = log w ++ [EvEnforce rvals].
Proof.
  intros Hen (p & Hin & Hp).
  assert (Hall : forallb is_string rvals = false).
  { apply not_true_is_false. intros Hall.
    rewrite forallb_forall in Hall.
    apply list_elem_of_In in Hin. apply Hall in Hin. congruence. }
  assert (Hk : getKey rvals = ("", false))
    by (by apply getKey_loop_not_cacheable).
  split; [done|].
  destruct (Enforcer_Enforce rvals (Enforcer (obj w))) as [r en'] eqn:He.
  exists r, en'. eexists. split; [done|]. split.
  - rewrite Enforce_not_cacheable; [| done | by rewrite Hk].
    by apply engine_Enforce_run.
  - done.
Qed.

(** C6: on a miss ([Get] answered [ErrNoSuchKey]) with caching enabled
    and a key, when the engine fails [Enforce] returns false with the
    engine's error and the store is untouched (no [Set] in the events);
    when the engine succeeds the decision is given to [Set] with the
    configured survival time and returned together with whatever error
    [Set] answered. *)
Theorem Enforce_cache_miss w rvals key d0 :
  enableCache (obj w) <> 0 -> getKey rvals = (key, true) ->
  lock_free w ->
  persist.Get key (cache (obj w)) = (d0, Some ErrNoSuchKey) ->
  (forall r e en',
     Enforcer_Enforce rvals (Enforcer (obj w)) = ((r, Some e), en') ->
     Enforce rvals w =
       Done (false, Some e)
            (after w en' (cache (obj w))
                   [EvRLock; EvGet key; EvRUnlock; EvEnforce rvals])) /\
  (forall r en' serr c',
     Enforcer_Enforce rvals (Enforcer (obj w)) = ((r, None), en') ->
     persist.Set_ key r [IUint (expireTime (obj w))] (cache (obj w)) = (serr, c') ->
     Enforce rvals w =
       Done (r, serr)
            (after w en' c'
                   [EvRLock; EvGet key; EvRUnlock; EvEnforce rvals;
                    EvLock; EvSet key r [IUint (expireTime (obj w))]; EvUnlock])).
Proof.
  intros Hen Hk Hfree Hg. split.
  - intros r e en' He. eapply Enforce_miss_engine_error; try done.
    by rewrite Hfree.
  - intros r en' serr c' He Hs. by eapply Enforce_miss_engine_ok.
Qed.

(** C10: the key builder is not injective on requests of strings.  Each
    parameter is followed by the delimiter, the last one too, so the
    request with the one parameter a$$b and the request with the two
    parameters a and b differ and have the same key; with caching
    enabled, once [Enforce] has succeeded for one of them, [Enforce] for
    the other returns that decision from the store and the engine is not
    invoked. *)
Theorem getKey_not_injective :
  (forall rule, getKey (IString <$> rule) = (rule_key rule, true)) /\
  [IString "a$$b"] <> [IString "a"; IString "b"] /\
  getKey [IString "a$$b"] = ("a$$b$$", true) /\
  getKey [IString "a"; IString "b"] = ("a$$b$$", true) /\
  (forall w d w1,
     enableCache (obj w) <> 0 ->
     Enforce [IString "a$$b"] w = Done (d, None) w1 ->
     exists w2,
       Enforce [IString "a"; IString "b"] w1 = Done (d, None) w2 /\
       log w2 = log w1 ++ [EvRLock; EvGet "a$$b$$"; EvRUnlock] /\
       Enforcer (obj w2) = Enforcer (obj w1)) /\
  (forall w d w1,
     enableCache (obj w) <> 0 ->
     Enforce [IString "a"; IString "b"] w = Done (d, None) w1 ->
     exists w2,
       Enforce [IString "a$$b"] w1 = Done (d, None) w2 /\
       log w2 = log w1 ++ [EvRLock; EvGet "a$$b$$"; EvRUnlock] /\
       Enforcer (obj w2) = Enforcer (obj w1)).
Proof.
  split; [exact getKey_strings|].
  split; [discriminate|].
  split; [reflexivity|]. split; [reflexivity|].
  split; intros w d w1 Hen Hrun; eexists; (split;
    [ eapply (Enforce_same_key_cached w _ _ "a$$b$$"); [exact Hen | | | exact Hrun];
      reflexivity
    | done ]).
Qed.

End EnforceFacts.

(** ** Enforce on the stub engine *)

Example NewCachedEnforcer_stub :
  NewCachedEnforcer (mkStub 0 (true, None), None) = (Some world0, None).
Proof. reflexivity. Qed.

Lemma Enforce_twice_cached_witness :
  exists key w2,
    getKey alice_request = (key, true) /\
    Enforce alice_request world1 = Done (true, None) w2 /\
    log w2 = log world1 ++ [EvRLock; EvGet key; EvRUnlock] /\
    Enforcer (obj w2) = Enforcer (obj world1) /\
    cache (obj w2) = cache (obj world1).
Proof.
  apply (Enforce_twice_cached world0 alice_request true world1).
  - simpl. lia.
  - reflexivity.
  - vm_compute. reflexivity.
Defined.

Lemma Enforce_non_string_bypasses_cache_witness :
  getKey [IString "alice"; IOther 7; IString "read"] = ("", false) /\
  exists r en' w',
    Enforcer_Enforce [IString "alice"; IOther 7; IString "read"]
                     (Enforcer (obj world0)) = (r, en') /\
    Enforce [IString "alice"; IOther 7; IString "read"] world0 = Done r w' /\
    cache (obj w') = cache (obj world0) /\
    Enforcer (obj w') = en' /\
    log w' = log world0 ++ [EvEnforce [IString "alice"; IOther 7; IString "read"]].
Proof.
  apply (Enforce_non_string_bypasses_cache world0).
  - simpl. lia.
  - exists (IOther 7). split; [|reflexivity].
    apply list_elem_of_In. simpl. right. left. reflexivity.
Defined.

Lemma Enforce_cache_miss_witness :
  Enforce alice_request world0 = Done (true, None) world1.
Proof.
  refine (proj2 (Enforce_cache_miss world0 alice_request
                   "alice$$data1$$read$$" false _ _ _ _)
                true (mkStub 1 (true, None)) None
                (<["alice$$data1$$read$$" := true]> ∅) _ _).
  - simpl. lia.
  - reflexivity.
  - reflexivity.
  - vm_compute. reflexivity.
  - reflexivity.
  - reflexivity.
Defined.

Lemma getKey_not_injective_witness :
  exists w2,
    Enforce [IString "a"; IString "b"] world_ab = Done (true, None) w2 /\
    log w2 = log world_ab ++ [EvRLock; EvGet "a$$b$$"; EvRUnlock] /\
    Enforcer (obj w2) = Enforcer (obj world_ab).
Proof.
  apply (proj1 (proj2 (proj2 (proj2 (proj2
           (@getKey_not_injective (gmap string bool) Stub _ _ _)))))
         world0 true world_ab).
  - simpl. lia.
  - vm_compute. reflexivity.
Defined.

(** ** LoadPolicy, RemovePolicy, EnableCache *)

Section MutationFacts.

Context {St En : Type} `{!persist.Cache St} `{!Enforcer_iface En}.

Implicit Types (w : World St En) (rvals params : list iface) (key : string).

Ltac run_world w :=
  destruct w as [[en et c ec [wr rd]] lg];
  unfold lock_free, after, emit, with_cache, with_Enforcer, with_locker in *;
  simpl in *; subst.

Lemma LoadPolicy_clear_fails w e c' :
  enableCache (obj w) <> 0 ->
  persist.Clear (cache (obj w)) = (Some e, c') ->
  LoadPolicy w = Done (Some e) (after w (Enforcer (obj w)) c' [EvClear]).
Proof.
  intros Hen Hc. unfold LoadPolicy, bind, load_enableCache, cache_Clear.
  cbn beta iota. rewrite (enabled_eqb _ Hen). cbn [negb].
  rewrite Hc. simpl. by run_world w.
Qed.

Lemma LoadPolicy_clear_ok w c' r en' :
  enableCache (obj w) <> 0 ->
  persist.Clear (cache (obj w)) = (None, c') ->
  Enforcer_LoadPolicy (Enforcer (obj w)) = (r, en') ->
  LoadPolicy w = Done r (after w en' c' [EvClear; EvLoadPolicy]).
Proof.
  intros Hen Hc Hl.
  unfold LoadPolicy, bind, load_enableCache, cache_Clear, engine_LoadPolicy.
  cbn beta iota. rewrite (enabled_eqb _ Hen). cbn [negb].
  rewrite Hc. simpl. rewrite Hl.
  run_world w. by rewrite <- !app_assoc.
Qed.

Lemma LoadPolicy_disabled w r en' :
  enableCache (obj w) = 0 ->
  Enforcer_LoadPolicy (Enforcer (obj w)) = (r, en') ->
  LoadPolicy w = Done r (after w en' (cache (obj w)) [EvLoadPolicy]).
Proof.
  intros Hd Hl. unfold LoadPolicy, bind, load_enableCache, engine_LoadPolicy.
  cbn beta iota. rewrite Hd. simpl. rewrite Hl. by run_world w.
Qed.

Lemma RemovePolicy_delete_ok w params key derr c' r en' :
  enableCache (obj w) <> 0 -> getKey params = (key, true) ->
  persist.Delete key (cache (obj w)) = (derr, c') ->
  derr = None \/ derr = Some ErrNoSuchKey ->
  Enforcer_RemovePolicy params (Enforcer (obj w)) = (r, en') ->
  RemovePolicy params w =
    Done r (after w en' c' [EvDelete key; EvRemovePolicy params]).
Proof.
  intros Hen Hk Hd Hderr Hr.
  unfold RemovePolicy, bind, load_enableCache, cache_Delete, engine_RemovePolicy.
  cbn beta iota. rewrite (enabled_eqb _ Hen), Hk. cbn [negb].
  rewrite Hd.
  destruct Hderr as [-> | ->]; simpl; rewrite Hr;
    run_world w; by rewrite <- !app_assoc.
Qed.

Lemma RemovePolicy_delete_fails w params key msg c' :
  enableCache (obj w) <> 0 -> getKey params = (key, true) ->
  persist.Delete key (cache (obj w)) = (Some (ErrOther msg), c') ->
  RemovePolicy params w =
    Done (false, Some (ErrOther msg)) (after w (Enforcer (obj w)) c' [EvDelete key]).
Proof.
  intros Hen Hk Hd.
  unfold RemovePolicy, bind, load_enableCache, cache_Delete.
  cbn beta iota. rewrite (enabled_eqb _ Hen), Hk. cbn [negb].
  rewrite Hd. simpl. by run_world w.
Qed.

Lemma InvalidateCache_run w cerr c' :
  lock_free w ->
  persist.Clear (cache (obj w)) = (cerr, c') ->
  InvalidateCache w =
    Done cerr (after w (Enforcer (obj w)) c' [EvLock; EvClear; EvUnlock]).
Proof.
  intros Hl Hc. run_world w. injection Hl as -> ->.
  unfold InvalidateCache, bind, ret, locker_Lock, cache_Clear, locker_Unlock.
  simpl. rewrite Hc. simpl. unfold emit, with_cache, with_locker. simpl.
  by rewrite <- !app_assoc.
Qed.

(** C5: with caching enabled and a cacheable request, [RemovePolicy]
    calls [Delete] on the request's key first.  When [Delete] answers nil
    or [ErrNoSuchKey], the underlying removal runs next and its result is
    returned; when [Delete] answers any other error, the call returns
    false with that error and the underlying engine is not called. *)
Theorem RemovePolicy_deletes_first w params key :
  enableCache (obj w) <> 0 -> getKey params = (key, true) ->
  (forall derr c' r en',
     persist.Delete key (cache (obj w)) = (derr, c') ->
     derr = None \/ derr = Some ErrNoSuchKey ->
     Enforcer_RemovePolicy params (Enforcer (obj w)) = (r, en') ->
     RemovePolicy params w =
       Done r (after w en' c' [EvDelete key; EvRemovePolicy params])) /\
  (forall msg c',
     persist.Delete key (cache (obj w)) = (Some (ErrOther msg), c') ->
     RemovePolicy params w =
       Done (false, Some (ErrOther msg))
            (after w (Enforcer (obj w)) c' [EvDelete key])).
Proof.
  intros Hen Hk. split.
  - intros derr c' r en'. by apply RemovePolicy_delete_ok.
  - intros msg c'. by apply RemovePolicy_delete_fails.
Qed.

(** C7: [EnableCache] writes the flag and nothing else: the engine, the
    survival time, the store, the lock and the events are the ones before
    the call.  So after [EnableCache(false)] followed by [EnableCache(true)]
    the store (and every answer of [Get]), the survival time, the engine,
    the lock and the events are the ones before, and the flag is 1. *)
Theorem EnableCache_only_flag w b :
  (exists w',
     EnableCache b w = Done tt w' /\
     enableCache (obj w') = (if b then 1 else 0) /\
     Enforcer (obj w') = Enforcer (obj w) /\
     expireTime (obj w') = expireTime (obj w) /\
     cache (obj w') = cache (obj w) /\
     locker (obj w') = locker (obj w) /\
     log w' = log w) /\
  (exists w1 w2,
     EnableCache false w = Done tt w1 /\
     EnableCache true w1 = Done tt w2 /\
     enableCache (obj w1) = 0 /\
     enableCache (obj w2) = 1 /\
     cache (obj w2) = cache (obj w) /\
     (forall k, persist.Get k (cache (obj w2)) = persist.Get k (cache (obj w))) /\
     expireTime (obj w2) = expireTime (obj w) /\
     Enforcer (obj w2) = Enforcer (obj w) /\
     locker (obj w2) = locker (obj w) /\
     log w2 = log w).
Proof.
  split.
  - exists (with_enableCache (if b then 1 else 0) w). by repeat split.
  - exists (with_enableCache 0 w), (with_enableCache 1 (with_enableCache 0 w)).
    by repeat split.
Qed.

Context `{!persist.CacheContract St}.

(** C4: with caching enabled, [LoadPolicy] calls [Clear] first.  When
    [Clear] fails, its error is returned and the engine is not called;
    when [Clear] succeeds the engine's reload runs next and its result is
    returned, and whatever that result is, [Get] of every key fails with
    [ErrNoSuchKey] on the store the call leaves. *)
Theorem LoadPolicy_clears_first w :
  enableCache (obj w) <> 0 ->
  (forall e c',
     persist.Clear (cache (obj w)) = (Some e, c') ->
     LoadPolicy w = Done (Some e) (after w (Enforcer (obj w)) c' [EvClear])) /\
  (forall c' r en',
     persist.Clear (cache (obj w)) = (None, c') ->
     Enforcer_LoadPolicy (Enforcer (obj w)) = (r, en') ->
     exists w',
       LoadPolicy w = Done r w' /\
       w' = after w en' c' [EvClear; EvLoadPolicy] /\
       forall k, (persist.Get k (cache (obj w'))).2 = Some ErrNoSuchKey).
Proof.
  intros Hen. split.
  - intros e c'. by apply LoadPolicy_clear_fails.
  - intros c' r en' Hc Hl. eexists. split; [by apply LoadPolicy_clear_ok|].
    split; [done|]. intros k. simpl. by eapply persist.Get_Clear.
Qed.

End MutationFacts.

Lemma RemovePolicy_deletes_first_witness :
  RemovePolicy alice_request world1 =
    Done (true, None)
         (after world1 (mkStub 2 (true, None)) ∅
                [EvDelete "alice$$data1$$read$$"; EvRemovePolicy alice_request]).
Proof.
  refine (proj1 (RemovePolicy_deletes_first world1 alice_request
                   "alice$$data1$$read$$" _ _)
                None ∅ (true, None) (mkStub 2 (true, None)) _ _ _).
  - simpl. lia.
  - reflexivity.
  - vm_compute. reflexivity.
  - left. reflexivity.
  - reflexivity.
Defined.

Lemma LoadPolicy_clears_first_witness :
  exists w',
    LoadPolicy world1 = Done None w' /\
    w' = after world1 (mkStub 2 (true, None)) ∅ [EvClear; EvLoadPolicy] /\
    forall k, (persist.Get k (cache (obj w'))).2 = Some ErrNoSuchKey.
Proof.
  refine (proj2 (LoadPolicy_clears_first world1 _)
                ∅ None (mkStub 2 (true, None)) _ _).
  - simpl. lia.
  - reflexivity.
  - reflexivity.
Defined.

(** ** RemovePolicies *)

(** What the copy of a rule into the shared buffer leaves: the rule, then
    whatever the buffer held beyond the rule's length; a rule longer than
    the buffer is a write out of range. *)
Lemma fill_irule_app (rule : list string) (pre suf : list iface) :
  fill_irule (length pre) rule (pre ++ suf) =
    if decide (length rule <= length suf)%nat
    then Some (pre ++ (IString <$> rule) ++ drop (length rule) suf)
    else None.
Proof.
  revert pre suf. induction rule as [|param rest IH]; intros pre suf.
  - simpl. by rewrite drop_0.
  - cbn [fill_irule]. rewrite length_app.
    destruct suf as [|x suf'].
    + simpl. rewrite Nat.add_0_r.
      destruct (decide (length pre < length pre)%nat); [lia|].
      destruct (decide (S (length rest) <= 0)%nat); [lia|done].
    + destruct (decide (length pre < length pre + length (x :: suf'))%nat) as [_|Hn];
        [|simpl in Hn; lia].
      replace (<[length pre := IString param]> (pre ++ x :: suf'))
        with ((pre ++ [IString param]) ++ suf').
      2:{ rewrite insert_app_r_alt by lia. rewrite Nat.sub_diag. simpl.
          by rewrite <- app_assoc. }
      replace (S (length pre)) with (length (pre ++ [IString param]))
        by (rewrite length_app; simpl; lia).
      rewrite IH. simpl.
      destruct (decide (length rest <= length suf')%nat);
        destruct (decide (S (length rest) <= S (length suf'))%nat); try lia.
      * by rewrite <- app_assoc.
      * done.
Qed.

Lemma fill_irule_0 (rule : list string) (irule : list iface) :
  fill_irule 0 rule irule =
    if decide (length rule <= length irule)%nat
    then Some ((IString <$> rule) ++ drop (length rule) irule)
    else None.
Proof. exact (fill_irule_app rule [] irule). Qed.

Lemma fill_irule_same_length (rule : list string) (irule : list iface) :
  length rule = length irule ->
  fill_irule 0 rule irule = Some (IString <$> rule).
Proof.
  intros Hlen. rewrite fill_irule_0.
  destruct (decide (length rule <= length irule)%nat); [|lia].
  rewrite drop_ge by lia. by rewrite app_nil_r.
Qed.

Section RemovePoliciesFacts.

Context {St En : Type} `{!persist.Cache St} `{!Enforcer_iface En}.
Context `{!persist.CacheContract St}.

Implicit Types (w : World St En) (rules : list (list string)).

Lemma RemovePolicies_loop_uniform rules (irule : list iface) w :
  Delete_never_fails ->
  Forall (fun rule => length rule = length irule) rules ->
  exists c',
    RemovePolicies_loop irule rules w =
      Done None (after w (Enforcer (obj w)) c' ((EvDelete ∘ rule_key) <$> rules)) /\
    (forall rule, rule ∈ rules ->
       (persist.Get (rule_key rule) c').2 = Some ErrNoSuchKey) /\
    (forall k, (persist.Get k (cache (obj w))).2 = Some ErrNoSuchKey ->
       (persist.Get k c').2 = Some ErrNoSuchKey).
Proof.
  intros Hdel. revert irule w.
  induction rules as [|rule rest IH]; intros irule w Hlen.
  - exists (cache (obj w)). split.
    + simpl. unfold ret, after. destruct w as [[en et c ec l] lg]; simpl.
      by rewrite app_nil_r.
    + split; [|done]. intros rule Hin. by apply elem_of_nil in Hin.
  - apply Forall_cons in Hlen as [Hrule Hrest].
    cbn [RemovePolicies_loop].
    rewrite (fill_irule_same_length _ _ Hrule), getKey_strings.
    unfold bind at 1, cache_Delete.
    destruct (persist.Delete (rule_key rule) (cache (obj w))) as [derr c1] eqn:Hd.
    assert (Hderr : derr = None \/ derr = Some ErrNoSuchKey).
    { pose proof (Hdel (rule_key rule) (cache (obj w))) as Hc.
      by rewrite Hd in Hc. }
    destruct (IH (IString <$> rule) (emit (EvDelete (rule_key rule)) (with_cache c1 w)))
      as (c' & Hrun & Habs & Hframe).
    { eapply Forall_impl; [exact Hrest|]. intros r Hr. simpl in Hr.
      rewrite length_fmap. congruence. }
    exists c'. split; [|split].
    + assert (Hnext : RemovePolicies_loop (IString <$> rule) rest
                        (emit (EvDelete (rule_key rule)) (with_cache c1 w)) =
                      Done None (after w (Enforcer (obj w)) c'
                                       ((EvDelete ∘ rule_key) <$> rule :: rest))).
      { rewrite Hrun. unfold after, emit, with_cache.
        destruct w as [[en et c ec l] lg]; simpl. by rewrite <- app_assoc. }
      destruct Hderr as [-> | ->]; simpl; exact Hnext.
    + intros r Hin. apply elem_of_cons in Hin as [-> | Hin].
      * apply Hframe. simpl. by eapply persist.Get_Delete.
      * by apply Habs.
    + intros k Hk. apply Hframe. simpl.
      by eapply persist.Delete_keeps_absent.
Qed.

(** With caching enabled, rules that all have the length of the first
    one, and a store without failures of its own: the key of every rule is
    deleted, in order, before the engine is called, and is absent from the
    store afterwards. *)
Lemma RemovePolicies_uniform rule0 rest w r en' :
  let rules := rule0 :: rest in
  enableCache (obj w) <> 0 ->
  Delete_never_fails ->
  Forall (fun rule => length rule = length rule0) rules ->
  Enforcer_RemovePolicies rules (Enforcer (obj w)) = (r, en') ->
  exists c',
    RemovePolicies rules w =
      Done r (after w en' c'
                    (((EvDelete ∘ rule_key) <$> rules) ++ [EvRemovePolicies rules])) /\
    forall rule, rule ∈ rules ->
      (persist.Get (rule_key rule) c').2 = Some ErrNoSuchKey.
Proof.
  intros rules Hen Hdel Hlen Hr.
  destruct (RemovePolicies_loop_uniform rules (replicate (length rule0) INil) w Hdel)
    as (c' & Hrun & Habs & _).
  { eapply Forall_impl; [exact Hlen|]. intros rule Hl. simpl in Hl.
    by rewrite length_replicate. }
  exists c'. split; [|exact Habs].
  unfold RemovePolicies. subst rules. cbn beta iota.
  unfold bind at 1, load_enableCache. cbn beta iota.
  rewrite (enabled_eqb _ Hen). cbn [negb]. unfold bind at 1.
  rewrite Hrun. unfold engine_RemovePolicies. simpl Enforcer. rewrite Hr.
  unfold after, emit, with_Enforcer.
  destruct w as [[en et c ec l] lg]; simpl. by rewrite <- app_assoc.
Qed.

End RemovePoliciesFacts.

(** The default store has no failure of its own. *)
Lemma DefaultCache_Delete_never_fails : @Delete_never_fails (gmap string bool) _.
Proof.
  intros k s. simpl. destruct (s !! k); simpl; auto.
Qed.

(** C2, on a batch whose second rule is shorter than the first: the buffer
    still holds the tail of the first rule, so the key deleted for the rule
    [c] is c$$b$$; the key c$$ of the rule stays in the store with its
    decision after the call has returned.  On a batch whose second rule is
    longer than the first the copy into the buffer panics after the first
    key was deleted, and the engine is never called. *)
Theorem RemovePolicies_shorter_rule_stale :
  let rules := [["a"; "b"]; ["c"]] in
  RemovePolicies rules world_c =
    Done (true, None)
         (after world_c (mkStub 1 (true, None)) (<["c$$" := true]> ∅)
                [EvDelete "a$$b$$"; EvDelete "c$$b$$"; EvRemovePolicies rules]) /\
  getKey (IString <$> ["c"]) = ("c$$", true) /\
  persist.Get "c$$" (<["c$$" := true]> ∅ : gmap string bool) = (true, None) /\
  RemovePolicies [["a"]; ["b"; "c"]] world_c =
    Panic "runtime error: index out of range"
          (after world_c (mkStub 0 (true, None)) (<["c$$" := true]> ∅)
                 [EvDelete "a$$"]).
Proof.
  intros rules. repeat split; vm_compute; reflexivity.
Qed.

(** ** The lock around the store *)

Section LockFacts.

Context {St En : Type} `{!persist.Cache St} `{!Enforcer_iface En}.

Implicit Types (w : World St En) (rvals params : list iface) (key : string).

Lemma Enforce_miss_needs_free_lock w rvals key d0 r en' a w' :
  enableCache (obj w) <> 0 -> getKey rvals = (key, true) ->
  writer (locker (obj w)) = false ->
  persist.Get key (cache (obj w)) = (d0, Some ErrNoSuchKey) ->
  Enforcer_Enforce rvals (Enforcer (obj w)) = ((r, None), en') ->
  Enforce rvals w = Done a w' -> lock_free w.
Proof.
  intros Hen Hk Hw Hg He. unfold Enforce. unfold bind at 1, load_enableCache.
  rewrite (enabled_eqb _ Hen), Hk. simpl. unfold bind at 1.
  rewrite (getCachedResult_run _ _ Hw), Hg. simpl. unfold bind at 1.
  erewrite engine_Enforce_run by exact He. simpl. unfold bind at 1.
  destruct (setCachedResult _ _ _ _) as [a0 w0| |] eqn:Hset; try discriminate.
  intros _. apply setCachedResult_not_free in Hset.
  revert Hset. unfold lock_free, after. by simpl.
Qed.

(** Every store call of [Enforce] is made under the lock: [Get] under
    the shared lock, [Set] under the exclusive one. *)
Lemma Enforce_lock_discipline w rvals r w' :
  Enforce rvals w = Done r w' ->
  exists t, log w' = log w ++ t /\ lock_discipline no_lock_held t = true.
Proof.
  intros Hrun.
  destruct (Enforcer_Enforce rvals (Enforcer (obj w))) as [re en'] eqn:He.
  destruct (decide (enableCache (obj w) = 0)) as [Hd|Hen].
  { rewrite (Enforce_disabled _ _ Hd), (engine_Enforce_run _ _ _ _ He) in Hrun.
    injection Hrun as _ <-. by eexists. }
  destruct (getKey rvals) as [key [|]] eqn:Hk.
  2:{ rewrite (Enforce_not_cacheable _ _ Hen), (engine_Enforce_run _ _ _ _ He) in Hrun
        by (by rewrite Hk).
      injection Hrun as _ <-. by eexists. }
  destruct (writer (locker (obj w))) eqn:Hw.
  { exfalso. revert Hrun. unfold Enforce. unfold bind at 1, load_enableCache.
    rewrite (enabled_eqb _ Hen), Hk. simpl. unfold bind at 1.
    by rewrite (getCachedResult_blocked _ _ Hw). }
  destruct (persist.Get key (cache (obj w))) as [d0 [[|msg]|]] eqn:Hg.
  - destruct re as [r0 [e|]].
    + rewrite (Enforce_miss_engine_error _ _ _ _ _ _ _ Hen Hk Hw Hg He) in Hrun.
      injection Hrun as _ <-. by eexists.
    + pose proof (Enforce_miss_needs_free_lock _ _ _ _ _ _ _ _ Hen Hk Hw Hg He Hrun)
        as Hfree.
      destruct (persist.Set_ key r0 [IUint (expireTime (obj w))] (cache (obj w)))
        as [serr c'] eqn:Hs.
      rewrite (Enforce_miss_engine_ok _ _ _ _ _ _ _ _ Hen Hk Hfree Hg He Hs) in Hrun.
      injection Hrun as _ <-. by eexists.
  - rewrite (Enforce_store_error _ _ _ _ _ Hen Hk Hw Hg) in Hrun.
    injection Hrun as _ <-. by eexists.
  - rewrite (Enforce_hit _ _ _ _ Hen Hk Hw Hg) in Hrun.
    injection Hrun as _ <-. by eexists.
Qed.

(** [InvalidateCache] calls [Clear] under the exclusive lock. *)
Lemma InvalidateCache_lock_discipline w r w' :
  InvalidateCache w = Done r w' ->
  exists t, log w' = log w ++ t /\ lock_discipline no_lock_held t = true.
Proof.
  intros Hrun.
  assert (Hfree : lock_free w).
  { revert Hrun. unfold InvalidateCache, bind, locker_Lock, lock_free.
    destruct w as [[en et c ec [[|] [|rd]]] lg]; simpl; done. }
  destruct (persist.Clear (cache (obj w))) as [cerr c'] eqn:Hc.
  rewrite (InvalidateCache_run _ _ _ Hfree Hc) in Hrun.
  injection Hrun as _ <-. by eexists.
Qed.

(** With caching enabled, [LoadPolicy] calls [Clear] with no lock held,
    whatever the store and the engine answer. *)
Lemma LoadPolicy_no_lock w r w' :
  enableCache (obj w) <> 0 ->
  LoadPolicy w = Done r w' ->
  exists t, log w' = log w ++ t /\ lock_discipline no_lock_held t = false.
Proof.
  intros Hen Hrun.
  destruct (persist.Clear (cache (obj w))) as [[e|] c'] eqn:Hc.
  - rewrite (LoadPolicy_clear_fails _ _ _ Hen Hc) in Hrun.
    injection Hrun as _ <-. by eexists.
  - destruct (Enforcer_LoadPolicy (Enforcer (obj w))) as [rl en'] eqn:Hl.
    rewrite (LoadPolicy_clear_ok _ _ _ _ Hen Hc Hl) in Hrun.
    injection Hrun as _ <-. by eexists.
Qed.

(** With caching enabled and a cacheable request, [RemovePolicy] calls
    [Delete] with no lock held, whatever the store and the engine answer. *)
Lemma RemovePolicy_no_lock w params key r w' :
  enableCache (obj w) <> 0 -> getKey params = (key, true) ->
  RemovePolicy params w = Done r w' ->
  exists t, log w' = log w ++ t /\ lock_discipline no_lock_held t = false.
Proof.
  intros Hen Hk Hrun.
  destruct (persist.Delete key (cache (obj w))) as [derr c'] eqn:Hd.
  destruct (Enforcer_RemovePolicy params (Enforcer (obj w))) as [rr en'] eqn:Hr.
  destruct derr as [[|msg]|].
  - rewrite (RemovePolicy_delete_ok _ _ _ _ _ _ _ Hen Hk Hd (or_intror eq_refl) Hr)
      in Hrun.
    injection Hrun as _ <-. by eexists.
  - rewrite (RemovePolicy_delete_fails _ _ _ _ _ Hen Hk Hd) in Hrun.
    injection Hrun as _ <-. by eexists.
  - rewrite (RemovePolicy_delete_ok _ _ _ _ _ _ _ Hen Hk Hd (or_introl eq_refl) Hr)
      in Hrun.
    injection Hrun as _ <-. by eexists.
Qed.

End LockFacts.

(** C9, on the orchestrator that holds alice's decision: [Enforce] and
    [InvalidateCache] call the store under the lock, but [LoadPolicy] calls
    [Clear], and [RemovePolicy] and [RemovePolicies] call [Delete], with no
    lock held: their events contain no lock operation at all. *)
Theorem mutations_skip_the_lock :
  let rule := ["alice"; "data1"; "read"] in
  let key := "alice$$data1$$read$$" in
  (exists r w', Enforce alice_request world0 = Done r w' /\
     lock_discipline no_lock_held (drop (length (log world0)) (log w')) = true) /\
  (exists r w', InvalidateCache world1 = Done r w' /\
     lock_discipline no_lock_held (drop (length (log world1)) (log w')) = true) /\
  LoadPolicy world1 =
    Done None (after world1 (mkStub 2 (true, None)) ∅ [EvClear; EvLoadPolicy]) /\
  lock_discipline no_lock_held [EvClear; EvLoadPolicy] = false /\
  RemovePolicy alice_request world1 =
    Done (true, None)
         (after world1 (mkStub 2 (true, None)) ∅
                [EvDelete key; EvRemovePolicy alice_request]) /\
  lock_discipline no_lock_held [EvDelete key; EvRemovePolicy alice_request] = false /\
  RemovePolicies [rule] world1 =
    Done (true, None)
         (after world1 (mkStub 2 (true, None)) ∅
                [EvDelete key; EvRemovePolicies [rule]]) /\
  lock_discipline no_lock_held [EvDelete key; EvRemovePolicies [rule]] = false.
Proof.
  intros rule key.
  split; [do 2 eexists; split; vm_compute; reflexivity|].
  split; [do 2 eexists; split; vm_compute; reflexivity|].
  repeat split; vm_compute; reflexivity.
Qed.

(** * Further properties of the layer *)

(** ** Every way [Enforce] returns *)

Section EnforcePaths.

Context {St En : Type} `{!persist.Cache St} `{!Enforcer_iface En}.

Implicit Types (w : World St En) (rvals params : list iface) (key : string).

(** A call of [Enforce] that returns took one of four paths: the bypass
    (caching off or no key), the answer of the store (a hit or the store's
    own error), a miss on which the engine failed, or a miss on which the
    engine decided and [Set] was called. *)
Lemma Enforce_inv w rvals r w' :
  Enforce rvals w = Done r w' ->
  ((enableCache (obj w) = 0 \/ (getKey rvals).2 = false) /\
   exists en',
     Enforcer_Enforce rvals (Enforcer (obj w)) = (r, en') /\
     w' = after w en' (cache (obj w)) [EvEnforce rvals])
  \/
  (exists key,
     enableCache (obj w) <> 0 /\ getKey rvals = (key, true) /\
     writer (locker (obj w)) = false /\
     ((exists d oe,
         persist.Get key (cache (obj w)) = (d, oe) /\
         oe <> Some ErrNoSuchKey /\ r = (d, oe) /\
         w' = after w (Enforcer (obj w)) (cache (obj w))
                    [EvRLock; EvGet key; EvRUnlock])
      \/
      (exists d0 r0 e en',
         persist.Get key (cache (obj w)) = (d0, Some ErrNoSuchKey) /\
         Enforcer_Enforce rvals (Enforcer (obj w)) = ((r0, Some e), en') /\
         r = (false, Some e) /\
         w' = after w en' (cache (obj w))
                    [EvRLock; EvGet key; EvRUnlock; EvEnforce rvals])
      \/
      (exists d0 r0 en' serr c',
         persist.Get key (cache (obj w)) = (d0, Some ErrNoSuchKey) /\
         Enforcer_Enforce rvals (Enforcer (obj w)) = ((r0, None), en') /\
         persist.Set_ key r0 [IUint (expireTime (obj w))] (cache (obj w)) = (serr, c') /\
         lock_free w /\ r = (r0, serr) /\
         w' = after w en' c'
                    [EvRLock; EvGet key; EvRUnlock; EvEnforce rvals;
                     EvLock; EvSet key r0 [IUint (expireTime (obj w))]; EvUnlock]))).
Proof.
  intros Hrun.
  destruct (Enforcer_Enforce rvals (Enforcer (obj w))) as [re en'] eqn:He.
  destruct (decide (enableCache (obj w) = 0)) as [Hd|Hen].
  { left. split; [by left|].
    rewrite (Enforce_disabled _ _ Hd), (engine_Enforce_run _ _ _ _ He) in Hrun.
    injection Hrun as <- <-. by exists en'. }
  destruct (getKey rvals) as [key [|]] eqn:Hk.
  2:{ left. split; [by right|].
      rewrite (Enforce_not_cacheable _ _ Hen), (engine_Enforce_run _ _ _ _ He) in Hrun
        by (by rewrite Hk).
      injection Hrun as <- <-. by exists en'. }
  right. exists key.
  destruct (writer (locker (obj w))) eqn:Hw.
  { exfalso. revert Hrun. unfold Enforce. unfold bind at 1, load_enableCache.
    rewrite (enabled_eqb _ Hen), Hk. simpl. unfold bind at 1.
    by rewrite (getCachedResult_blocked _ _ Hw). }
  do 3 (split; [done|]).
  destruct (persist.Get key (cache (obj w))) as [d0 [[|msg]|]] eqn:Hg.
  - right. destruct re as [r0 [e|]].
    + left.
      rewrite (Enforce_miss_engine_error _ _ _ _ _ _ _ Hen Hk Hw Hg He) in Hrun.
      injection Hrun as <- <-. by exists d0, r0, e, en'.
    + right.
      pose proof (Enforce_miss_needs_free_lock _ _ _ _ _ _ _ _ Hen Hk Hw Hg He Hrun)
        as Hfree.
      destruct (persist.Set_ key r0 [IUint (expireTime (obj w))] (cache (obj w)))
        as [serr c'] eqn:Hs.
      rewrite (Enforce_miss_engine_ok _ _ _ _ _ _ _ _ Hen Hk Hfree Hg He Hs) in Hrun.
      injection Hrun as <- <-. by exists d0, r0, en', serr, c'.
  - left. rewrite (Enforce_store_error _ _ _ _ _ Hen Hk Hw Hg) in Hrun.
    injection Hrun as <- <-. by exists d0, (Some (ErrOther msg)).
  - left. rewrite (Enforce_hit _ _ _ _ Hen Hk Hw Hg) in Hrun.
    injection Hrun as <- <-. by exists d0, None.
Qed.

(** X1: with caching disabled, [Enforce] returns what the engine returns
    for the request, whatever the store holds for its key and whoever holds
    the lock: the engine's call is the only event, and the store is the one
    before the call. *)
Theorem Enforce_disabled_asks_engine w rvals :
  enableCache (obj w) = 0 ->
  exists r en',
    Enforcer_Enforce rvals (Enforcer (obj w)) = (r, en') /\
    Enforce rvals w = Done r (after w en' (cache (obj w)) [EvEnforce rvals]).
Proof.
  intros Hd.
  destruct (Enforcer_Enforce rvals (Enforcer (obj w))) as [r en'] eqn:He.
  exists r, en'. split; [done|].
  rewrite (Enforce_disabled _ _ Hd). by apply engine_Enforce_run.
Qed.

(** X2: when [Get] fails with an error that is not [ErrNoSuchKey],
    [Enforce] returns the value and the error that [Get] answered; the
    engine is not asked and nothing is written to the store. *)
Theorem Enforce_store_failure_returned w rvals key d e :
  enableCache (obj w) <> 0 -> getKey rvals = (key, true) ->
  writer (locker (obj w)) = false ->
  persist.Get key (cache (obj w)) = (d, Some e) ->
  is_ErrNoSuchKey e = false ->
  Enforce rvals w =
    Done (d, Some e)
         (after w (Enforcer (obj w)) (cache (obj w)) [EvRLock; EvGet key; EvRUnlock]).
Proof.
  intros Hen Hk Hw Hg He. destruct e as [|msg]; [discriminate|].
  by apply Enforce_store_error.
Qed.

(** X3: a call of [Enforce] that returns leaves the enable flag, the
    survival time and the lock as they were: each lock it took is released,
    on every path. *)
Theorem Enforce_keeps_configuration w rvals r w' :
  Enforce rvals w = Done r w' ->
  enableCache (obj w') = enableCache (obj w) /\
  expireTime (obj w') = expireTime (obj w) /\
  locker (obj w') = locker (obj w).
Proof.
  intros Hrun.
  destruct (Enforce_inv _ _ _ _ Hrun)
    as [(_ & en' & _ & ->)
       | (key & _ & _ & _ &
          [(d & oe & _ & _ & _ & ->)
          | [(d0 & r0 & e & en' & _ & _ & _ & ->)
            | (d0 & r0 & en' & serr & c' & _ & _ & _ & _ & _ & ->)]])];
    done.
Qed.

(** X4: in a call of [Enforce] that returns, the events it added are a
    [Get] between the shared lock and its release, and a [Set] between the
    exclusive lock and its release: no store call is made without the lock
    it needs. *)
Theorem Enforce_store_calls_locked w rvals r w' :
  Enforce rvals w = Done r w' ->
  exists t, log w' = log w ++ t /\ lock_discipline no_lock_held t = true.
Proof.
  intros Hrun.
  destruct (Enforce_inv _ _ _ _ Hrun)
    as [(_ & en' & _ & ->)
       | (key & _ & _ & _ &
          [(d & oe & _ & _ & _ & ->)
          | [(d0 & r0 & e & en' & _ & _ & _ & ->)
            | (d0 & r0 & en' & serr & c' & _ & _ & _ & _ & _ & ->)]])];
    by eexists.
Qed.

End EnforcePaths.

Lemma Enforce_disabled_asks_engine_witness :
  exists r en',
    Enforcer_Enforce alice_request (Enforcer (obj (with_enableCache 0 world1)))
      = (r, en') /\
    Enforce alice_request (with_enableCache 0 world1) =
      Done r (after (with_enableCache 0 world1) en'
                    (cache (obj (with_enableCache 0 world1)))
                    [EvEnforce alice_request]).
Proof.
  apply (Enforce_disabled_asks_engine (with_enableCache 0 world1) alice_request).
  reflexivity.
Defined.

Lemma Enforce_store_failure_returned_witness :
  Enforce alice_request world_broken =
    Done (false, Some backend_down)
         (after world_broken (Enforcer (obj world_broken)) (cache (obj world_broken))
                [EvRLock; EvGet "alice$$data1$$read$$"; EvRUnlock]).
Proof.
  apply (Enforce_store_failure_returned world_broken alice_request
           "alice$$data1$$read$$" false backend_down).
  - simpl. lia.
  - reflexivity.
  - reflexivity.
  - reflexivity.
  - reflexivity.
Defined.

Lemma Enforce_keeps_configuration_witness :
  enableCache (obj world1) = enableCache (obj world0) /\
  expireTime (obj world1) = expireTime (obj world0) /\
  locker (obj world1) = locker (obj world0).
Proof.
  apply (Enforce_keeps_configuration world0 alice_request (true, None) world1).
  vm_compute. reflexivity.
Defined.

Lemma Enforce_store_calls_locked_witness :
  exists t, log world1 = log world0 ++ t /\ lock_discipline no_lock_held t = true.
Proof.
  apply (Enforce_store_calls_locked world0 alice_request (true, None) world1).
  vm_compute. reflexivity.
Defined.

(** ** Enforce over the default store *)

Section EnforceDefaultStore.

Context {En : Type} `{!Enforcer_iface En}.

Implicit Types (w : World (gmap string bool) En) (rvals : list iface).

(** X5: over the default store, a call of [Enforce] that returns either
    leaves the map as it was, or adds the entry of the request's own key,
    which was absent, with the decision it returns: it never overwrites and
    never removes an entry, and never touches the key of another request. *)
Theorem Enforce_only_adds_own_key w rvals r w' :
  Enforce rvals w = Done r w' ->
  cache (obj w') = cache (obj w) \/
  exists key d,
    getKey rvals = (key, true) /\
    cache (obj w) !! key = None /\
    r = (d, None) /\
    cache (obj w') = <[key := d]> (cache (obj w)).
Proof.
  intros Hrun.
  destruct (Enforce_inv _ _ _ _ Hrun)
    as [(_ & en' & _ & ->)
       | (key & _ & Hk & _ &
          [(d & oe & _ & _ & _ & ->)
          | [(d0 & r0 & e & en' & _ & _ & _ & ->)
            | (d0 & r0 & en' & serr & c' & Hg & _ & Hs & _ & -> & ->)]])];
    try (by left).
  right. exists key, r0. simpl in Hg, Hs.
  unfold DefaultCache_Get in Hg. simpl in Hg.
  injection Hs as <- <-.
  destruct (cache (obj w) !! key) eqn:Hl; [discriminate|]. done.
Qed.

(** X6: over the default store, an error returned by [Enforce] is the
    error of the engine's own [Enforce] on that request: the store never
    fails a call, and nothing was written. *)
Theorem Enforce_error_is_engine_error w rvals d e w' :
  Enforce rvals w = Done (d, Some e) w' ->
  exists r0 en',
    Enforcer_Enforce rvals (Enforcer (obj w)) = ((r0, Some e), en') /\
    Enforcer (obj w') = en' /\
    cache (obj w') = cache (obj w).
Proof.
  intros Hrun.
  destruct (Enforce_inv _ _ _ _ Hrun)
    as [(_ & en' & He & ->)
       | (key & _ & Hk & _ &
          [(d1 & oe & Hg & Hoe & Hr & ->)
          | [(d0 & r0 & e0 & en' & _ & He & Hr & ->)
            | (d0 & r0 & en' & serr & c' & _ & _ & Hs & _ & Hr & ->)]])].
  - by exists d, en'.
  - exfalso. simpl in Hg. unfold DefaultCache_Get in Hg. simpl in Hg.
    destruct (cache (obj w) !! key); simplify_eq.
  - simplify_eq. by exists r0, en'.
  - exfalso. simpl in Hs. simplify_eq.
Qed.

End EnforceDefaultStore.

Lemma Enforce_only_adds_own_key_witness :
  cache (obj world1) = cache (obj world0) \/
  exists key d,
    getKey alice_request = (key, true) /\
    cache (obj world0) !! key = None /\
    ((true, None) : bool * option error) = (d, None) /\
    cache (obj world1) = <[key := d]> (cache (obj world0)).
Proof.
  apply (Enforce_only_adds_own_key world0 alice_request (true, None) world1).
  vm_compute. reflexivity.
Defined.

Lemma Enforce_error_is_engine_error_witness :
  let failing := mkStub 0 (false, Some (ErrOther "invalid request size")) in
  let w : World (gmap string bool) Stub :=
    mkWorld (mkCachedEnforcer failing 0%N ∅ 1 (mkRWMutex false 0)) [] in
  let w' :=
    after w (mkStub 1 (false, Some (ErrOther "invalid request size"))) ∅
          [EvRLock; EvGet "alice$$data1$$read$$"; EvRUnlock; EvEnforce alice_request] in
  exists r0 en',
    Enforcer_Enforce alice_request (Enforcer (obj w))
      = ((r0, Some (ErrOther "invalid request size")), en') /\
    Enforcer (obj w') = en' /\
    cache (obj w') = cache (obj w).
Proof.
  intros failing w w'.
  apply (Enforce_error_is_engine_error w alice_request false
           (ErrOther "invalid request size") w').
  vm_compute. reflexivity.
Defined.

(** ** InvalidateCache and the setters *)

Section ConfigurationFacts.

Context {St En : Type} `{!persist.Cache St} `{!Enforcer_iface En}.

Implicit Types (w : World St En) (rvals params : list iface) (key : string).

(** X8: [SetExpireTime] changes the survival time only, and the next
    [Enforce] that misses hands the new value to [Set] as the one extra
    argument. *)
Theorem SetExpireTime_reaches_Set w t rvals key d0 r en' serr c' :
  enableCache (obj w) <> 0 -> getKey rvals = (key, true) ->
  lock_free w ->
  persist.Get key (cache (obj w)) = (d0, Some ErrNoSuchKey) ->
  Enforcer_Enforce rvals (Enforcer (obj w)) = ((r, None), en') ->
  persist.Set_ key r [IUint t] (cache (obj w)) = (serr, c') ->
  exists w1,
    SetExpireTime t w = Done tt w1 /\
    expireTime (obj w1) = t /\
    Enforcer (obj w1) = Enforcer (obj w) /\ cache (obj w1) = cache (obj w) /\
    enableCache (obj w1) = enableCache (obj w) /\ locker (obj w1) = locker (obj w) /\
    log w1 = log w /\
    Enforce rvals w1 =
      Done (r, serr)
           (after w1 en' c'
                  [EvRLock; EvGet key; EvRUnlock; EvEnforce rvals;
                   EvLock; EvSet key r [IUint t]; EvUnlock]).
Proof.
  intros Hen Hk Hfree Hg He Hs.
  exists (with_expireTime t w). split; [done|]. do 6 (split; [done|]).
  by apply (Enforce_miss_engine_ok (with_expireTime t w) rvals key d0 r en' serr c').
Qed.

(** X9: [SetCache] replaces the store and nothing else; a request whose
    key the new store holds is answered from the new store, without the
    engine, whatever the old store held. *)
Theorem SetCache_answers_from_new_store w (c : St) rvals key d :
  enableCache (obj w) <> 0 -> getKey rvals = (key, true) ->
  writer (locker (obj w)) = false ->
  persist.Get key c = (d, None) ->
  exists w1,
    SetCache c w = Done tt w1 /\
    cache (obj w1) = c /\
    Enforcer (obj w1) = Enforcer (obj w) /\ expireTime (obj w1) = expireTime (obj w) /\
    enableCache (obj w1) = enableCache (obj w) /\ locker (obj w1) = locker (obj w) /\
    log w1 = log w /\
    Enforce rvals w1 =
      Done (d, None)
           (after w1 (Enforcer (obj w)) c [EvRLock; EvGet key; EvRUnlock]).
Proof.
  intros Hen Hk Hw Hg.
  exists (with_cache c w). split; [done|]. do 6 (split; [done|]).
  by apply (Enforce_hit (with_cache c w) rvals key d).
Qed.

(** X10: with caching disabled, [LoadPolicy] only reloads the engine: the
    store keeps its entries.  So an entry cached before caching was turned
    off is still served after the reload once caching is turned on again,
    without asking the reloaded engine. *)
Theorem LoadPolicy_disabled_keeps_entries w rvals key d rl en' :
  getKey rvals = (key, true) ->
  writer (locker (obj w)) = false ->
  persist.Get key (cache (obj w)) = (d, None) ->
  Enforcer_LoadPolicy (Enforcer (obj w)) = (rl, en') ->
  exists w1 w2 w3 w4,
    EnableCache false w = Done tt w1 /\
    LoadPolicy w1 = Done rl w2 /\
    cache (obj w2) = cache (obj w) /\
    log w2 = log w ++ [EvLoadPolicy] /\
    EnableCache true w2 = Done tt w3 /\
    Enforce rvals w3 = Done (d, None) w4 /\
    Enforcer (obj w4) = en' /\
    log w4 = log w ++ [EvLoadPolicy; EvRLock; EvGet key; EvRUnlock].
Proof.
  intros Hk Hw Hg Hl.
  exists (with_enableCache 0 w).
  exists (after (with_enableCache 0 w) en' (cache (obj w)) [EvLoadPolicy]).
  exists (with_enableCache 1
            (after (with_enableCache 0 w) en' (cache (obj w)) [EvLoadPolicy])).
  eexists. split; [done|].
  split; [by apply (LoadPolicy_disabled (with_enableCache 0 w))|].
  do 3 (split; [done|]).
  split.
  - by apply (Enforce_hit _ rvals key d).
  - simpl. split; [done|]. by rewrite <- app_assoc.
Qed.

(** X11: with caching disabled, or for parameters that are not all
    strings, [RemovePolicy] only calls the engine's removal: the store is
    not asked to delete anything. *)
Theorem RemovePolicy_bypasses_store w params r en' :
  enableCache (obj w) = 0 \/ (getKey params).2 = false ->
  Enforcer_RemovePolicy params (Enforcer (obj w)) = (r, en') ->
  RemovePolicy params w =
    Done r (after w en' (cache (obj w)) [EvRemovePolicy params]).
Proof.
  intros Hby Hr. unfold RemovePolicy, bind, load_enableCache. cbn beta iota.
  assert (Hrun : engine_RemovePolicy params w =
                 Done r (after w en' (cache (obj w)) [EvRemovePolicy params])).
  { unfold engine_RemovePolicy. rewrite Hr. by destruct w as [[? ? ? ? ?] ?]. }
  destruct (decide (enableCache (obj w) = 0)) as [Hd|Hen].
  - by rewrite Hd.
  - destruct Hby as [Hd|Hk]; [done|].
    rewrite (enabled_eqb _ Hen). cbn [negb].
    destruct (getKey params) as [key ok]. simpl in Hk. by subst ok.
Qed.

Context `{!persist.CacheContract St}.

(** X7: [InvalidateCache] does not look at the enable flag.  With the
    lock free it calls [Clear] under the exclusive lock and returns its
    error; after a [Clear] without error every key misses, so the next
    [Enforce] of a cacheable request asks the engine again and stores its
    decision. *)
Theorem InvalidateCache_then_Enforce_recomputes w cerr c' :
  lock_free w ->
  persist.Clear (cache (obj w)) = (cerr, c') ->
  exists w1,
    InvalidateCache w = Done cerr w1 /\
    w1 = after w (Enforcer (obj w)) c' [EvLock; EvClear; EvUnlock] /\
    (cerr = None ->
     (forall k, (persist.Get k (cache (obj w1))).2 = Some ErrNoSuchKey) /\
     forall rvals key r en' serr c'',
       enableCache (obj w) <> 0 -> getKey rvals = (key, true) ->
       Enforcer_Enforce rvals (Enforcer (obj w)) = ((r, None), en') ->
       persist.Set_ key r [IUint (expireTime (obj w))] c' = (serr, c'') ->
       Enforce rvals w1 =
         Done (r, serr)
              (after w1 en' c''
                     [EvRLock; EvGet key; EvRUnlock; EvEnforce rvals;
                      EvLock; EvSet key r [IUint (expireTime (obj w))]; EvUnlock])).
Proof.
  intros Hfree Hc. eexists. split; [by apply InvalidateCache_run|].
  split; [done|]. intros ->.
  assert (Hmiss : forall k, (persist.Get k c').2 = Some ErrNoSuchKey)
    by (intros k; by eapply persist.Get_Clear).
  split; [exact Hmiss|].
  intros rvals key r en' serr c'' Hen Hk He Hs.
  specialize (Hmiss key).
  destruct (persist.Get key c') as [d0 oe] eqn:Hg. simpl in Hmiss. subst oe.
  by apply (Enforce_miss_engine_ok
              (after w (Enforcer (obj w)) c' [EvLock; EvClear; EvUnlock])
              rvals key d0 r en' serr c'').
Qed.

(** X12: after a [RemovePolicy] of a cacheable request whose [Delete]
    answered nil or [ErrNoSuchKey], the request's key misses, so the next
    [Enforce] of the same request asks the engine again instead of serving
    the decision cached before the removal. *)
Theorem RemovePolicy_then_Enforce_recomputes w params key derr c' r en1 :
  enableCache (obj w) <> 0 -> getKey params = (key, true) ->
  lock_free w ->
  persist.Delete key (cache (obj w)) = (derr, c') ->
  derr = None \/ derr = Some ErrNoSuchKey ->
  Enforcer_RemovePolicy params (Enforcer (obj w)) = (r, en1) ->
  exists w1,
    RemovePolicy params w = Done r w1 /\
    (persist.Get key (cache (obj w1))).2 = Some ErrNoSuchKey /\
    forall d en2 serr c'',
      Enforcer_Enforce params en1 = ((d, None), en2) ->
      persist.Set_ key d [IUint (expireTime (obj w))] c' = (serr, c'') ->
      Enforce params w1 =
        Done (d, serr)
             (after w1 en2 c''
                    [EvRLock; EvGet key; EvRUnlock; EvEnforce params;
                     EvLock; EvSet key d [IUint (expireTime (obj w))]; EvUnlock]).
Proof.
  intros Hen Hk Hfree Hd Hderr Hr. eexists.
  split; [by apply (RemovePolicy_delete_ok w params key derr c')|].
  assert (Hmiss : (persist.Get key c').2 = Some ErrNoSuchKey)
    by (by eapply persist.Get_Delete).
  split; [exact Hmiss|].
  intros d en2 serr c'' He Hs.
  destruct (persist.Get key c') as [d0 oe] eqn:Hg. simpl in Hmiss. subst oe.
  by apply (Enforce_miss_engine_ok
              (after w en1 c' [EvDelete key; EvRemovePolicy params])
              params key d0 d en2 serr c'').
Qed.

End ConfigurationFacts.

Lemma SetExpireTime_reaches_Set_witness :
  exists w1,
    SetExpireTime 60%N world0 = Done tt w1 /\
    Enforce alice_request w1 =
      Done (true, None)
           (after w1 (mkStub 1 (true, None)) (<["alice$$data1$$read$$" := true]> ∅)
                  [EvRLock; EvGet "alice$$data1$$read$$"; EvRUnlock;
                   EvEnforce alice_request;
                   EvLock; EvSet "alice$$data1$$read$$" true [IUint 60%N]; EvUnlock]).
Proof.
  destruct (SetExpireTime_reaches_Set world0 60%N alice_request
              "alice$$data1$$read$$" false true (mkStub 1 (true, None)) None
              (<["alice$$data1$$read$$" := true]> ∅))
    as (w1 & Hset & _ & _ & _ & _ & _ & _ & Hrun).
  - simpl. lia.
  - reflexivity.
  - reflexivity.
  - vm_compute. reflexivity.
  - reflexivity.
  - reflexivity.
  - by exists w1.
Defined.

Lemma SetCache_answers_from_new_store_witness :
  exists w1,
    SetCache (<["alice$$data1$$read$$" := false]> ∅) world0 = Done tt w1 /\
    Enforce alice_request w1 =
      Done (false, None)
           (after w1 (mkStub 0 (true, None)) (<["alice$$data1$$read$$" := false]> ∅)
                  [EvRLock; EvGet "alice$$data1$$read$$"; EvRUnlock]).
Proof.
  destruct (SetCache_answers_from_new_store world0
              (<["alice$$data1$$read$$" := false]> ∅) alice_request
              "alice$$data1$$read$$" false)
    as (w1 & Hset & _ & _ & _ & _ & _ & _ & Hrun).
  - simpl. lia.
  - reflexivity.
  - reflexivity.
  - vm_compute. reflexivity.
  - by exists w1.
Defined.

Lemma LoadPolicy_disabled_keeps_entries_witness :
  exists w1 w2 w3 w4,
    EnableCache false world1 = Done tt w1 /\
    LoadPolicy w1 = Done None w2 /\
    cache (obj w2) = cache (obj world1) /\
    log w2 = log world1 ++ [EvLoadPolicy] /\
    EnableCache true w2 = Done tt w3 /\
    Enforce alice_request w3 = Done (true, None) w4 /\
    Enforcer (obj w4) = mkStub 2 (true, None) /\
    log w4 = log world1 ++
             [EvLoadPolicy; EvRLock; EvGet "alice$$data1$$read$$"; EvRUnlock].
Proof.
  apply (LoadPolicy_disabled_keeps_entries world1 alice_request
           "alice$$data1$$read$$" true None (mkStub 2 (true, None))).
  - reflexivity.
  - reflexivity.
  - vm_compute. reflexivity.
  - reflexivity.
Defined.

Lemma RemovePolicy_bypasses_store_witness :
  RemovePolicy [IString "alice"; IOther 7] world1 =
    Done (true, None)
         (after world1 (mkStub 2 (true, None)) (cache (obj world1))
                [EvRemovePolicy [IString "alice"; IOther 7]]).
Proof.
  apply (RemovePolicy_bypasses_store world1 [IString "alice"; IOther 7]
           (true, None) (mkStub 2 (true, None))).
  - right. reflexivity.
  - reflexivity.
Defined.

Lemma InvalidateCache_then_Enforce_recomputes_witness :
  exists w1,
    InvalidateCache world1 = Done None w1 /\
    w1 = after world1 (mkStub 1 (true, None)) ∅ [EvLock; EvClear; EvUnlock].
Proof.
  destruct (InvalidateCache_then_Enforce_recomputes world1 None ∅)
    as (w1 & Hrun & Hw1 & _).
  - reflexivity.
  - reflexivity.
  - by exists w1.
Defined.

Lemma RemovePolicy_then_Enforce_recomputes_witness :
  exists w1,
    RemovePolicy alice_request world1 = Done (true, None) w1 /\
    (persist.Get "alice$$data1$$read$$" (cache (obj w1))).2 = Some ErrNoSuchKey.
Proof.
  destruct (RemovePolicy_then_Enforce_recomputes world1 alice_request
              "alice$$data1$$read$$" None ∅ (true, None) (mkStub 2 (true, None)))
    as (w1 & Hrun & Hmiss & _).
  - simpl. lia.
  - reflexivity.
  - reflexivity.
  - vm_compute. reflexivity.
  - by left.
  - reflexivity.
  - by exists w1.
Defined.

(** ** RemovePolicies on batches of rules of one length *)

Section RemovePoliciesMore.

Context {St En : Type} `{!persist.Cache St} `{!Enforcer_iface En}.

Implicit Types (w : World St En) (rules pre post : list (list string)).

Lemma RemovePolicies_enabled_unfold rule0 rest w :
  enableCache (obj w) <> 0 ->
  RemovePolicies (rule0 :: rest) w =
    match RemovePolicies_loop (replicate (length rule0) INil) (rule0 :: rest) w with
    | Done (Some e) w1 => Done (false, Some e) w1
    | Done None w1 => engine_RemovePolicies (rule0 :: rest) w1
    | Panic msg w1 => Panic msg w1
    | Blocked w1 => Blocked w1
    end.
Proof.
  intros Hen. unfold RemovePolicies. unfold bind at 1, load_enableCache.
  cbn beta iota. rewrite (enabled_eqb _ Hen). cbn [negb]. unfold bind at 1.
  destruct (RemovePolicies_loop _ _ w) as [[e|] w1| |]; reflexivity.
Qed.

Lemma RemovePolicies_loop_Delete_all rules (irule : list iface) w c' :
  Forall (fun rule => length rule = length irule) rules ->
  Delete_all (rule_key <$> rules) (cache (obj w)) = Some c' ->
  RemovePolicies_loop irule rules w =
    Done None (after w (Enforcer (obj w)) c' ((EvDelete ∘ rule_key) <$> rules)).
Proof.
  revert irule w. induction rules as [|rule rest IH]; intros irule w Hlen Hall.
  - simpl in *. injection Hall as <-. unfold ret, after.
    destruct w as [[en et c ec l] lg]; simpl. by rewrite app_nil_r.
  - apply Forall_cons in Hlen as [Hrule Hrest].
    cbn [RemovePolicies_loop].
    rewrite (fill_irule_same_length _ _ Hrule), getKey_strings.
    unfold bind at 1, cache_Delete.
    cbn [fmap list_fmap Delete_all] in Hall.
    destruct (persist.Delete (rule_key rule) (cache (obj w))) as [derr c1] eqn:Hd.
    assert (Hnext : Delete_all (rule_key <$> rest) c1 = Some c' /\
                    (derr = None \/ derr = Some ErrNoSuchKey)).
    { destruct derr as [[|msg]|]; simpl in Hall; try discriminate; auto. }
    destruct Hnext as [Hall' Hderr].
    assert (Hrun : RemovePolicies_loop (IString <$> rule) rest
                     (emit (EvDelete (rule_key rule)) (with_cache c1 w)) =
                   Done None (after w (Enforcer (obj w)) c'
                                    ((EvDelete ∘ rule_key) <$> rule :: rest))).
    { rewrite (IH (IString <$> rule) _).
      - unfold after, emit, with_cache.
        destruct w as [[en et c ec l] lg]; simpl. by rewrite <- app_assoc.
      - eapply Forall_impl; [exact Hrest|]. intros r Hr. simpl in Hr.
        rewrite length_fmap. congruence.
      - exact Hall'. }
    destruct Hderr as [-> | ->]; simpl; exact Hrun.
Qed.

Lemma RemovePolicies_loop_abort pre rule post (irule : list iface) w c1 e c2 :
  Forall (fun r => length r = length irule) (pre ++ [rule]) ->
  Delete_all (rule_key <$> pre) (cache (obj w)) = Some c1 ->
  persist.Delete (rule_key rule) c1 = (Some e, c2) ->
  is_ErrNoSuchKey e = false ->
  RemovePolicies_loop irule (pre ++ rule :: post) w =
    Done (Some e)
         (after w (Enforcer (obj w)) c2 ((EvDelete ∘ rule_key) <$> (pre ++ [rule]))).
Proof.
  revert irule w. induction pre as [|p pre IH]; intros irule w Hlen Hall Hd He.
  - simpl in Hall. injection Hall as <-.
    apply Forall_cons in Hlen as [Hrule _].
    cbn [app RemovePolicies_loop].
    rewrite (fill_irule_same_length _ _ Hrule), getKey_strings.
    unfold bind at 1, cache_Delete. rewrite Hd. rewrite He. simpl.
    unfold ret, after, emit, with_cache. by destruct w as [[en et c ec l] lg].
  - simpl in Hlen. apply Forall_cons in Hlen as [Hp Hrest].
    cbn [app RemovePolicies_loop].
    rewrite (fill_irule_same_length _ _ Hp), getKey_strings.
    unfold bind at 1, cache_Delete.
    cbn [fmap list_fmap Delete_all] in Hall.
    destruct (persist.Delete (rule_key p) (cache (obj w))) as [derr c0] eqn:Hd0.
    assert (Hnext : Delete_all (rule_key <$> pre) c0 = Some c1 /\
                    (derr = None \/ derr = Some ErrNoSuchKey)).
    { destruct derr as [[|msg]|]; simpl in Hall; try discriminate; auto. }
    destruct Hnext as [Hall' Hderr].
    assert (Hrun : RemovePolicies_loop (IString <$> p) (pre ++ rule :: post)
                     (emit (EvDelete (rule_key p)) (with_cache c0 w)) =
                   Done (Some e)
                        (after w (Enforcer (obj w)) c2
                               ((EvDelete ∘ rule_key) <$> (p :: pre) ++ [rule]))).
    { rewrite (IH (IString <$> p) _); try done.
      - unfold after, emit, with_cache.
        destruct w as [[en et c ec l] lg]; simpl. by rewrite <- app_assoc.
      - eapply Forall_impl; [exact Hrest|]. intros r Hr. simpl in Hr.
        rewrite length_fmap. congruence. }
    destruct Hderr as [-> | ->]; simpl; exact Hrun.
Qed.

(** X14: for an empty batch, or with caching disabled, [RemovePolicies]
    only calls the engine's batch removal: the store is not asked to delete
    anything. *)
Theorem RemovePolicies_bypasses_store rules w r en' :
  rules = [] \/ enableCache (obj w) = 0 ->
  Enforcer_RemovePolicies rules (Enforcer (obj w)) = (r, en') ->
  RemovePolicies rules w =
    Done r (after w en' (cache (obj w)) [EvRemovePolicies rules]).
Proof.
  intros Hby Hr.
  assert (Hrun : engine_RemovePolicies rules w =
                 Done r (after w en' (cache (obj w)) [EvRemovePolicies rules])).
  { unfold engine_RemovePolicies. rewrite Hr. by destruct w as [[? ? ? ? ?] ?]. }
  destruct rules as [|rule0 rest]; [exact Hrun|].
  destruct Hby as [Hnil|Hd]; [discriminate|].
  unfold RemovePolicies, bind, load_enableCache. cbn beta iota. by rewrite Hd.
Qed.

(** X15: with caching enabled and rules of one length, an answer of
    [Delete] that is an error other than [ErrNoSuchKey] ends the batch:
    the call returns false with that error, the keys of the rules before
    were deleted, the keys of the rules after are not, and the engine is
    not called. *)
Theorem RemovePolicies_aborts_on_store_error pre rule post w n c1 e c2 :
  enableCache (obj w) <> 0 ->
  Forall (fun r => length r = n) (pre ++ [rule]) ->
  Delete_all (rule_key <$> pre) (cache (obj w)) = Some c1 ->
  persist.Delete (rule_key rule) c1 = (Some e, c2) ->
  is_ErrNoSuchKey e = false ->
  RemovePolicies (pre ++ rule :: post) w =
    Done (false, Some e)
         (after w (Enforcer (obj w)) c2 ((EvDelete ∘ rule_key) <$> (pre ++ [rule]))).
Proof.
  intros Hen Hlen Hall Hd He.
  destruct (pre ++ rule :: post) as [|rule0 rest] eqn:Hrules.
  { by destruct pre. }
  rewrite (RemovePolicies_enabled_unfold _ _ _ Hen), <- Hrules.
  assert (Hn : length rule0 = n).
  { destruct pre as [|p pre']; simpl in Hrules, Hlen; injection Hrules as <- _;
      by apply Forall_cons in Hlen as [? _]. }
  rewrite (RemovePolicies_loop_abort pre rule post _ w c1 e c2); try done.
  eapply Forall_impl; [exact Hlen|]. intros r Hr. simpl in Hr.
  rewrite length_replicate. congruence.
Qed.

Context `{!persist.CacheContract St}.

Lemma Delete_all_absent keys (c c' : St) :
  Delete_all keys c = Some c' ->
  (forall k, k ∈ keys -> (persist.Get k c').2 = Some ErrNoSuchKey) /\
  (forall k, (persist.Get k c).2 = Some ErrNoSuchKey ->
             (persist.Get k c').2 = Some ErrNoSuchKey).
Proof.
  revert c. induction keys as [|k0 rest IH]; intros c Hall.
  - simpl in Hall. injection Hall as <-. split; [|done].
    intros k Hin. by apply elem_of_nil in Hin.
  - cbn [Delete_all] in Hall.
    destruct (persist.Delete k0 c) as [derr c1] eqn:Hd.
    assert (Hnext : Delete_all rest c1 = Some c' /\
                    (derr = None \/ derr = Some ErrNoSuchKey)).
    { destruct derr as [[|msg]|]; simpl in Hall; try discriminate; auto. }
    destruct Hnext as [Hall' Hderr].
    destruct (IH _ Hall') as [Habs Hframe]. split.
    + intros k Hin. apply elem_of_cons in Hin as [-> | Hin].
      * apply Hframe. by eapply persist.Get_Delete.
      * by apply Habs.
    + intros k Hk. apply Hframe. by eapply persist.Delete_keeps_absent.
Qed.

(** X13: with caching enabled, rules that all have the length of the
    first one, and no answer of [Delete] other than nil and [ErrNoSuchKey]:
    [RemovePolicies] deletes the key of every rule, in the order of the
    batch, then calls the engine's batch removal and returns its result;
    afterwards the key of every rule of the batch misses, and a key that
    missed before still misses. *)
Theorem RemovePolicies_same_length_rules rule0 rest w c' r en' :
  enableCache (obj w) <> 0 ->
  Forall (fun rule => length rule = length rule0) (rule0 :: rest) ->
  Delete_all (rule_key <$> rule0 :: rest) (cache (obj w)) = Some c' ->
  Enforcer_RemovePolicies (rule0 :: rest) (Enforcer (obj w)) = (r, en') ->
  RemovePolicies (rule0 :: rest) w =
    Done r (after w en' c'
                  (((EvDelete ∘ rule_key) <$> rule0 :: rest)
                   ++ [EvRemovePolicies (rule0 :: rest)])) /\
  (forall rule, rule ∈ rule0 :: rest ->
     (persist.Get (rule_key rule) c').2 = Some ErrNoSuchKey) /\
  (forall k, (persist.Get k (cache (obj w))).2 = Some ErrNoSuchKey ->
     (persist.Get k c').2 = Some ErrNoSuchKey).
Proof.
  intros Hen Hlen Hall Hr.
  destruct (Delete_all_absent _ _ _ Hall) as [Habs Hframe].
  split; [|split; [|exact Hframe]].
  - rewrite (RemovePolicies_enabled_unfold _ _ _ Hen).
    rewrite (RemovePolicies_loop_Delete_all _ _ w c'); [| |exact Hall].
    + unfold engine_RemovePolicies. simpl Enforcer. rewrite Hr.
      unfold after, emit, with_Enforcer.
      destruct w as [[en et c ec l] lg]; simpl. by rewrite <- app_assoc.
    + eapply Forall_impl; [exact Hlen|]. intros rule Hl. simpl in Hl.
      by rewrite length_replicate.
  - intros rule Hin. apply Habs. by apply list_elem_of_fmap_2.
Qed.

End RemovePoliciesMore.

Lemma RemovePolicies_same_length_rules_witness :
  RemovePolicies [["c"]; ["d"]] world_c =
    Done (true, None)
         (after world_c (mkStub 1 (true, None)) ∅
                [EvDelete "c$$"; EvDelete "d$$"; EvRemovePolicies [["c"]; ["d"]]]) /\
  (forall rule, rule ∈ [["c"]; ["d"]] ->
     (persist.Get (rule_key rule) (∅ : gmap string bool)).2 = Some ErrNoSuchKey) /\
  (forall k, (persist.Get k (cache (obj world_c))).2 = Some ErrNoSuchKey ->
     (persist.Get k (∅ : gmap string bool)).2 = Some ErrNoSuchKey).
Proof.
  apply (RemovePolicies_same_length_rules ["c"] [["d"]] world_c ∅ (true, None)
           (mkStub 1 (true, None))).
  - simpl. lia.
  - repeat constructor.
  - vm_compute. reflexivity.
  - reflexivity.
Defined.

Lemma RemovePolicies_bypasses_store_witness :
  RemovePolicies [] world1 =
    Done (true, None)
         (after world1 (mkStub 2 (true, None)) (cache (obj world1))
                [EvRemovePolicies []]).
Proof.
  apply (RemovePolicies_bypasses_store [] world1 (true, None) (mkStub 2 (true, None))).
  - left. reflexivity.
  - reflexivity.
Defined.

Lemma RemovePolicies_aborts_on_store_error_witness :
  RemovePolicies [["a"]; ["b"]] world_broken =
    Done (false, Some backend_down)
         (after world_broken (Enforcer (obj world_broken)) broken [EvDelete "a$$"]).
Proof.
  apply (RemovePolicies_aborts_on_store_error [] ["a"] [["b"]] world_broken 1%nat
           broken backend_down broken).
  - simpl. lia.
  - repeat constructor.
  - reflexivity.
  - reflexivity.
  - reflexivity.
Defined.

(** ** Keys of requests without the delimiter's character *)

Lemma append_String (ch : Ascii.ascii) (s t : string) :
  String ch s +:+ t = String ch (s +:+ t).
Proof. reflexivity. Qed.

Lemma append_empty_l (t : string) : "" +:+ t = t.
Proof. reflexivity. Qed.

Lemma has_dollar_head (s : string) :
  has_dollar (String dollar s) = true.
Proof. reflexivity. Qed.

(** A parameter without the character is cut off the key at the first
    delimiter. *)
Lemma key_split (s1 s2 r1 r2 : string) :
  has_dollar s1 = false -> has_dollar s2 = false ->
  s1 +:+ "$$" +:+ r1 = s2 +:+ "$$" +:+ r2 ->
  s1 = s2 /\ r1 = r2.
Proof.
  revert s2. induction s1 as [|c1 s1 IH]; intros [|c2 s2] H1 H2 Heq.
  - rewrite !append_empty_l, !append_String, !append_empty_l in Heq.
    by injection Heq as ->.
  - exfalso. rewrite append_empty_l, !append_String in Heq.
    injection Heq as <- _. by rewrite has_dollar_head in H2.
  - exfalso. rewrite append_empty_l, !append_String in Heq.
    injection Heq as -> _. by rewrite has_dollar_head in H1.
  - rewrite !(append_String _ _ ("$$" +:+ _)) in Heq.
    injection Heq as -> Heq.
    simpl in H1, H2.
    destruct (Ascii.eqb c2 dollar); [discriminate|].
    destruct (IH s2 H1 H2 Heq) as [-> ->]. done.
Qed.

Lemma rule_key_injective (l1 l2 : list string) :
  Forall (fun s => has_dollar s = false) l1 ->
  Forall (fun s => has_dollar s = false) l2 ->
  rule_key l1 = rule_key l2 -> l1 = l2.
Proof.
  revert l2. induction l1 as [|s1 r1 IH]; intros [|s2 r2] H1 H2 Heq.
  - done.
  - exfalso. cbn [rule_key] in Heq. destruct s2 as [|c s2].
    + rewrite append_empty_l, append_String in Heq. discriminate.
    + rewrite append_String in Heq. discriminate.
  - exfalso. cbn [rule_key] in Heq. destruct s1 as [|c s1].
    + rewrite append_empty_l, append_String in Heq. discriminate.
    + rewrite append_String in Heq. discriminate.
  - apply Forall_cons in H1 as [Hs1 Hr1]. apply Forall_cons in H2 as [Hs2 Hr2].
    cbn [rule_key] in Heq.
    destruct (key_split _ _ _ _ Hs1 Hs2 Heq) as [-> Hrest].
    f_equal. by apply IH.
Qed.

(** X16: on requests of strings none of which contains the character of
    the delimiter, the key builder is injective: two such requests with the
    same key are the same request, so neither is ever answered with the
    cached decision of the other. *)
Theorem getKey_injective_without_dollar (l1 l2 : list string) :
  Forall (fun s => has_dollar s = false) l1 ->
  Forall (fun s => has_dollar s = false) l2 ->
  getKey (IString <$> l1) = getKey (IString <$> l2) ->
  l1 = l2.
Proof.
  intros H1 H2 Heq. rewrite !getKey_strings in Heq.
  injection Heq as Heq. by apply rule_key_injective.
Qed.

Lemma getKey_injective_without_dollar_witness :
  ["alice"; "data1"; "read"] = ["alice"; "data1"; "read"].
Proof.
  apply (getKey_injective_without_dollar
           ["alice"; "data1"; "read"] ["alice"; "data1"; "read"]).
  - repeat constructor.
  - repeat constructor.
  - reflexivity.
Defined.

(** ** More on the default store *)

(** X17: in the default store a [Set] that returns and a [Delete] of a
    key leave the answer of [Get] for every other key as it was, in every
    state of the store (on the nil map [Set] panics and [Delete] changes
    nothing). *)
Theorem DefaultCache_other_keys_untouched (c : option (gmap string bool))
    (k k' : string) (v : bool) (hint : list iface) :
  k <> k' ->
  (forall e c',
     DefaultCache_Set k v hint c = Returns (e, c') ->
     DefaultCache_Get k' c' = DefaultCache_Get k' c) /\
  DefaultCache_Get k' (DefaultCache_Delete k c).2 = DefaultCache_Get k' c.
Proof.
  intros Hne. split.
  - intros e c' Hset. destruct c as [m|]; [|discriminate].
    injection Hset as _ <-. unfold DefaultCache_Get. simpl.
    by rewrite lookup_insert_ne.
  - unfold DefaultCache_Delete, DefaultCache_Get.
    destruct c as [m|]; simpl; [|done].
    destruct (m !! k); simpl; [|done]. by rewrite lookup_delete_ne.
Qed.

Lemma DefaultCache_other_keys_untouched_witness :
  let c : option (gmap string bool) := Some (<["bob$$" := false]> ∅) in
  DefaultCache_Get "bob$$" (Some (<["alice$$" := true]> (<["bob$$" := false]> ∅)))
    = DefaultCache_Get "bob$$" c /\
  DefaultCache_Get "bob$$" (DefaultCache_Delete "alice$$" c).2 = DefaultCache_Get "bob$$" c.
Proof.
  intros c.
  destruct (DefaultCache_other_keys_untouched c "alice$$" "bob$$" true [])
    as [Hset Hdel].
  - discriminate.
  - split; [|exact Hdel].
    apply (Hset None (Some (<["alice$$" := true]> (<["bob$$" := false]> ∅)))).
    reflexivity.
Defined.

(** X18: in the default store [Delete] of a key that is present returns
    nil and removes exactly that entry; [Get] of the key then misses, and a
    second [Delete] of it fails with [ErrNoSuchKey] and changes nothing. *)
Theorem DefaultCache_Delete_present (c : option (gmap string bool)) (k : string)
    (v : bool) :
  DefaultCache_index k c = Some v ->
  DefaultCache_Delete k c = (None, delete k <$> c) /\
  DefaultCache_Get k (delete k <$> c) = (false, Some ErrNoSuchKey) /\
  DefaultCache_Delete k (delete k <$> c) = (Some ErrNoSuchKey, delete k <$> c).
Proof.
  intros Hk. unfold DefaultCache_Get, DefaultCache_Delete. rewrite Hk.
  destruct c as [m|]; [|discriminate]. simpl. by rewrite lookup_delete_eq.
Qed.

Lemma DefaultCache_Delete_present_witness :
  let c : option (gmap string bool) := Some (<["bob$$" := false]> ∅) in
  DefaultCache_Delete "bob$$" c = (None, delete "bob$$" <$> c) /\
  DefaultCache_Get "bob$$" (delete "bob$$" <$> c) = (false, Some ErrNoSuchKey) /\
  DefaultCache_Delete "bob$$" (delete "bob$$" <$> c)
    = (Some ErrNoSuchKey, delete "bob$$" <$> c).
Proof.
  intros c. apply (DefaultCache_Delete_present c "bob$$" false).
  vm_compute. reflexivity.
Defined.

(** X19: in the default store, when a [Set] of a key that was absent
    returns, a [Delete] of the key gives back the store as it was; and
    when a [Set] of a key returns, a second [Set] of the key leaves the
    store that it would have left without the first. *)
Theorem DefaultCache_Set_then_Delete (c : option (gmap string bool)) (k : string)
    (v v' : bool) (hint hint' : list iface) :
  forall e c',
    DefaultCache_Set k v hint c = Returns (e, c') ->
    (DefaultCache_index k c = None -> DefaultCache_Delete k c' = (None, c)) /\
    DefaultCache_Set k v' hint' c' = DefaultCache_Set k v' hint' c.
Proof.
  intros e c' Hset. destruct c as [m|]; [|discriminate].
  injection Hset as _ <-. split.
  - simpl. intros Hk. unfold DefaultCache_Delete. simpl.
    rewrite lookup_insert_eq. simpl. rewrite delete_insert_eq.
    by rewrite (delete_id _ _ Hk).
  - simpl. by rewrite insert_insert_eq.
Qed.

Lemma DefaultCache_Set_then_Delete_witness :
  let c : option (gmap string bool) := Some (<["bob$$" := false]> ∅) in
  DefaultCache_Delete "alice$$" (Some (<["alice$$" := true]> (<["bob$$" := false]> ∅)))
    = (None, c).
Proof.
  intros c.
  apply (proj1 (DefaultCache_Set_then_Delete c "alice$$" true false [IUint 5%N] []
                  None (Some (<["alice$$" := true]> (<["bob$$" := false]> ∅)))
                  eq_refl)).
  vm_compute. reflexivity.
Defined.

(** ** A new orchestrator *)

(** X20: [NewCachedEnforcer] passes on an error of the engine's
    constructor.  Otherwise, on the orchestrator it returns, the first
    [Enforce] of a request of strings that the engine decides asks the
    engine once and stores the decision with the survival time 0, and the
    second [Enforce] of that request returns the decision from the store:
    the engine is left in the state after its one call. *)
Theorem NewCachedEnforcer_computes_once {En : Type} `{!Enforcer_iface En}
    (en : En) (rule : list string) (d : bool) (en' : En) :
  (forall err, NewCachedEnforcer (en, Some err) = (None, Some err)) /\
  (Enforcer_Enforce (IString <$> rule) en = ((d, None), en') ->
   exists w0 w1 w2,
     NewCachedEnforcer (en, None) = (Some w0, None) /\
     Enforce (IString <$> rule) w0 = Done (d, None) w1 /\
     log w1 = [EvRLock; EvGet (rule_key rule); EvRUnlock;
               EvEnforce (IString <$> rule);
               EvLock; EvSet (rule_key rule) d [IUint 0%N]; EvUnlock] /\
     Enforce (IString <$> rule) w1 = Done (d, None) w2 /\
     Enforcer (obj w2) = en' /\
     log w2 = log w1 ++ [EvRLock; EvGet (rule_key rule); EvRUnlock]).
Proof.
  split; [done|]. intros He.
  set (w0 := mkWorld (mkCachedEnforcer en 0%N (∅ : gmap string bool) 1
                                       (mkRWMutex false 0)) []).
  assert (Hen : enableCache (obj w0) <> 0) by (simpl; lia).
  assert (Hrun1 : Enforce (IString <$> rule) w0 =
                  Done (d, None)
                       (after w0 en' (<[rule_key rule := d]> ∅)
                              [EvRLock; EvGet (rule_key rule); EvRUnlock;
                               EvEnforce (IString <$> rule);
                               EvLock; EvSet (rule_key rule) d [IUint 0%N]; EvUnlock])).
  { apply (Enforce_miss_engine_ok w0 _ (rule_key rule) false d en' None);
      [ exact Hen | apply getKey_strings | reflexivity
      | simpl; unfold DefaultCache_Get; simpl; by rewrite lookup_empty
      | exact He | reflexivity ]. }
  exists w0. eexists. eexists. split; [done|]. split; [exact Hrun1|].
  split; [done|]. split.
  - apply (Enforce_hit _ _ (rule_key rule) d);
      [ exact Hen | apply getKey_strings | reflexivity
      | simpl; unfold DefaultCache_Get; simpl; by rewrite lookup_insert_eq ].
  - done.
Qed.

Lemma NewCachedEnforcer_computes_once_witness :
  exists w0 w1 w2,
    NewCachedEnforcer (mkStub 0 (true, None), None) = (Some w0, None) /\
    Enforce (IString <$> ["alice"; "data1"; "read"]) w0 = Done (true, None) w1 /\
    log w1 = [EvRLock; EvGet (rule_key ["alice"; "data1"; "read"]); EvRUnlock;
              EvEnforce (IString <$> ["alice"; "data1"; "read"]);
              EvLock; EvSet (rule_key ["alice"; "data1"; "read"]) true [IUint 0%N];
              EvUnlock] /\
    Enforce (IString <$> ["alice"; "data1"; "read"]) w1 = Done (true, None) w2 /\
    Enforcer (obj w2) = mkStub 1 (true, None) /\
    log w2 = log w1 ++
             [EvRLock; EvGet (rule_key ["alice"; "data1"; "read"]); EvRUnlock].
Proof.
  apply (proj2 (NewCachedEnforcer_computes_once (mkStub 0 (true, None))
                  ["alice"; "data1"; "read"] true (mkStub 1 (true, None)))).
  reflexivity.
Defined.

(** ** RemovePolicies on a rule longer than the first *)

Section RemovePoliciesBounds.

Context {St En : Type} `{!persist.Cache St} `{!Enforcer_iface En}.

Implicit Types (w : World St En) (rules pre post : list (list string)).

Lemma RemovePolicies_loop_out_of_range pre rule post (irule : list iface) w c1 :
  Forall (fun r => length r = length irule) pre ->
  (length irule < length rule)%nat ->
  Delete_all (rule_key <$> pre) (cache (obj w)) = Some c1 ->
  RemovePolicies_loop irule (pre ++ rule :: post) w =
    Panic "runtime error: index out of range"
          (after w (Enforcer (obj w)) c1 ((EvDelete ∘ rule_key) <$> pre)).
Proof.
  revert irule w. induction pre as [|p pre IH]; intros irule w Hlen Hlong Hall.
  - simpl in Hall. injection Hall as <-.
    cbn [app RemovePolicies_loop]. rewrite fill_irule_0.
    destruct (decide (length rule <= length irule)%nat); [lia|].
    unfold after. destruct w as [[en et c ec l] lg]; simpl. by rewrite app_nil_r.
  - apply Forall_cons in Hlen as [Hp Hrest].
    cbn [app RemovePolicies_loop].
    rewrite (fill_irule_same_length _ _ Hp), getKey_strings.
    unfold bind at 1, cache_Delete.
    cbn [fmap list_fmap Delete_all] in Hall.
    destruct (persist.Delete (rule_key p) (cache (obj w))) as [derr c0] eqn:Hd0.
    assert (Hnext : Delete_all (rule_key <$> pre) c0 = Some c1 /\
                    (derr = None \/ derr = Some ErrNoSuchKey)).
    { destruct derr as [[|msg]|]; simpl in Hall; try discriminate; auto. }
    destruct Hnext as [Hall' Hderr].
    assert (Hrun : RemovePolicies_loop (IString <$> p) (pre ++ rule :: post)
                     (emit (EvDelete (rule_key p)) (with_cache c0 w)) =
                   Panic "runtime error: index out of range"
                         (after w (Enforcer (obj w)) c1
                                ((EvDelete ∘ rule_key) <$> p :: pre))).
    { rewrite (IH (IString <$> p) _ ); [| | |exact Hall'].
      - unfold after, emit, with_cache.
        destruct w as [[en et c ec l] lg]; simpl. by rewrite <- app_assoc.
      - eapply Forall_impl; [exact Hrest|]. intros r Hr. simpl in Hr.
        rewrite length_fmap. congruence.
      - rewrite length_fmap. lia. }
    destruct Hderr as [-> | ->]; simpl; exact Hrun.
Qed.

(** X21: with caching enabled, a batch in which a rule is longer than the
    first one, after rules of the first one's length only, makes
    [RemovePolicies] panic with an index out of range when it comes to that
    rule: the keys of the rules before it were deleted, and the engine's
    removal is never called. *)
Theorem RemovePolicies_longer_rule_panics rule0 pre rule post w c1 :
  enableCache (obj w) <> 0 ->
  Forall (fun r => length r = length rule0) pre ->
  (length rule0 < length rule)%nat ->
  Delete_all (rule_key <$> rule0 :: pre) (cache (obj w)) = Some c1 ->
  RemovePolicies (rule0 :: pre ++ rule :: post) w =
    Panic "runtime error: index out of range"
          (after w (Enforcer (obj w)) c1 ((EvDelete ∘ rule_key) <$> rule0 :: pre)).
Proof.
  intros Hen Hlen Hlong Hall.
  rewrite (RemovePolicies_enabled_unfold _ _ _ Hen).
  rewrite (RemovePolicies_loop_out_of_range (rule0 :: pre) rule post _ w c1);
    [done| | |exact Hall].
  - apply Forall_cons. split; [by rewrite length_replicate|].
    eapply Forall_impl; [exact Hlen|]. intros r Hr. simpl in Hr.
    by rewrite length_replicate.
  - by rewrite length_replicate.
Qed.

End RemovePoliciesBounds.

Lemma RemovePolicies_longer_rule_panics_witness :
  RemovePolicies [["a"]; ["b"; "c"]] world_c =
    Panic "runtime error: index out of range"
          (after world_c (Enforcer (obj world_c)) (cache (obj world_c))
                 [EvDelete "a$$"]).
Proof.
  apply (RemovePolicies_longer_rule_panics ["a"] [] ["b"; "c"] [] world_c
           (cache (obj world_c))).
  - simpl. lia.
  - constructor.
  - simpl. lia.
  - vm_compute. reflexivity.
Defined.

(** ** The zero value of the default store *)

(** X22: whatever the state of the default store, the nil map included,
    after [Clear] a [Set] returns without an error and the following [Get]
    of that key returns the value set: [Clear] makes the zero value
    usable. *)
Theorem DefaultCache_Clear_then_Set (c : option (gmap string bool)) (k : string)
    (v : bool) (hint : list iface) :
  exists c1 c2,
    DefaultCache_Clear c = (None, c1) /\
    DefaultCache_Set k v hint c1 = Returns (None, c2) /\
    DefaultCache_Get k c2 = (v, None) /\
    forall k', k' <> k -> DefaultCache_Get k' c2 = (false, Some ErrNoSuchKey).
Proof.
  exists (Some ∅), (Some (<[k := v]> ∅)).
  split; [reflexivity|]. split; [reflexivity|].
  unfold DefaultCache_Get. simpl. split.
  - by rewrite lookup_insert_eq.
  - intros k' Hne. rewrite lookup_insert_ne by done. by rewrite lookup_empty.
Qed.
